(** * WEB_SCRAPPER_Using-GO: the scrape pipeline and the visit history

    A shallow embedding of [api/index.go]: the recent-history tracker
    ([addToVisited], [getVisited]) over an explicit store of Go slices, and
    the scrape pipeline ([scrapeWebsite]) with its inline link
    normalisation.  Go strings are byte strings and are modelled by
    [string]; the functions of Go's [strings] package that the program calls
    are written out on that type. *)

From Stdlib Require Import ZArith Ascii DecimalString.
From stdpp Require Import gmap strings list.

(** ** Go's [strings] package, as far as the program uses it *)

(** [s[n:]] and [s[:n]] on a byte string. *)
Fixpoint str_drop (n : nat) (s : string) : string :=
  match n, s with
  | S n', String _ s' => str_drop n' s'
  | _, _ => s
  end.

Fixpoint str_take (n : nat) (s : string) : string :=
  match n, s with
  | S n', String c s' => String c (str_take n' s')
  | _, _ => ""
  end.

(** [strings.HasPrefix(s, prefix)]:
    [len(s) >= len(prefix) && s[:len(prefix)] == prefix]. *)
Definition HasPrefix (s pre : string) : bool :=
  (String.length pre <=? String.length s)
  && String.eqb (str_take (String.length pre) s) pre.

(** [strings.HasSuffix(s, suffix)]:
    [len(s) >= len(suffix) && s[len(s)-len(suffix):] == suffix]. *)
Definition HasSuffix (s suf : string) : bool :=
  (String.length suf <=? String.length s)
  && String.eqb (str_drop (String.length s - String.length suf) s) suf.

(** [strings.TrimSuffix(s, suffix)]: one occurrence is removed, if present. *)
Definition TrimSuffix (s suf : string) : string :=
  if HasSuffix s suf then str_take (String.length s - String.length suf) s
  else s.

(** [strings.Split(s, sep)] for a one-byte separator: the substrings between
    the separators, [Count(s, sep) + 1] of them, so [Split("", "/")] is
    [[""]]. *)
Fixpoint Split (s : string) (sep : Ascii.ascii) : list string :=
  match s with
  | EmptyString => [""]
  | String c s' =>
      if Ascii.eqb c sep then "" :: Split s' sep
      else match Split s' sep with
           | part :: parts => String c part :: parts
           | [] => [String c ""]
           end
  end.

(** [strings.Join(elems, sep)]. *)
Fixpoint Join (elems : list string) (sep : string) : string :=
  match elems with
  | [] => ""
  | [e] => e
  | e :: rest => e +:+ sep +:+ Join rest sep
  end.

(** The byte string with the given byte values. *)
Definition bytes (l : list nat) : string :=
  foldr (fun n s => String (Ascii.ascii_of_nat n) s) "" l.

(** The UTF-8 encodings of the code points with Unicode's White_Space
    property, which is what [unicode.IsSpace] tests: U+0009..U+000D, U+0020,
    U+0085, U+00A0, U+1680, U+2000..U+200A, U+2028, U+2029, U+202F, U+205F
    and U+3000. *)
Definition space_encodings : list string :=
  [ bytes [0x09]; bytes [0x0A]; bytes [0x0B]; bytes [0x0C]; bytes [0x0D];
    bytes [0x20];
    bytes [0xC2; 0x85]; bytes [0xC2; 0xA0];
    bytes [0xE1; 0x9A; 0x80];
    bytes [0xE2; 0x80; 0x80]; bytes [0xE2; 0x80; 0x81];
    bytes [0xE2; 0x80; 0x82]; bytes [0xE2; 0x80; 0x83];
    bytes [0xE2; 0x80; 0x84]; bytes [0xE2; 0x80; 0x85];
    bytes [0xE2; 0x80; 0x86]; bytes [0xE2; 0x80; 0x87];
    bytes [0xE2; 0x80; 0x88]; bytes [0xE2; 0x80; 0x89];
    bytes [0xE2; 0x80; 0x8A];
    bytes [0xE2; 0x80; 0xA8]; bytes [0xE2; 0x80; 0xA9];
    bytes [0xE2; 0x80; 0xAF];
    bytes [0xE2; 0x81; 0x9F];
    bytes [0xE3; 0x80; 0x80] ].

(** The width of the white-space rune that [s] starts with, if it starts
    with one; a byte sequence that is no valid encoding decodes to U+FFFD,
    which is not white space. *)
Definition leading_space (s : string) : option nat :=
  String.length <$> List.find (HasPrefix s) space_encodings.

(** The width of the white-space rune that [s] ends with, if any. *)
Definition trailing_space (s : string) : option nat :=
  String.length <$> List.find (HasSuffix s) space_encodings.

(** [strings.TrimLeftFunc(s, unicode.IsSpace)]: runes are dropped from the
    front while they are white space.  [fuel] bounds the number of runes
    looked at; [String.length s] is enough. *)
Fixpoint trim_left (fuel : nat) (s : string) : string :=
  match fuel with
  | 0 => s
  | S fuel' =>
      match leading_space s with
      | Some w => trim_left fuel' (str_drop w s)
      | None => s
      end
  end.

(** [strings.TrimRightFunc(s, unicode.IsSpace)]. *)
Fixpoint trim_right (fuel : nat) (s : string) : string :=
  match fuel with
  | 0 => s
  | S fuel' =>
      match trailing_space s with
      | Some w => trim_right fuel' (str_take (String.length s - w) s)
      | None => s
      end
  end.

(** [strings.TrimSpace(s)]: [s] without its leading and trailing white
    space, as defined by Unicode. *)
Definition TrimSpace (s : string) : string :=
  let t := trim_left (String.length s) s in
  trim_right (String.length t) t.

(** A string made of white-space runes only (the empty string included). *)
Inductive AllSpace : string -> Prop :=
  | AllSpace_empty : AllSpace ""
  | AllSpace_rune w s :
      In w space_encodings -> AllSpace s -> AllSpace (w +:+ s).

(** ** Link normalisation: [scrapeWebsite], the inline block that rewrites
    [link] against the page's [url] *)

Definition normalize (url link : string) : string :=
  if negb (String.eqb link "") && negb (HasPrefix link "http")
     && negb (HasPrefix link "mailto:")
  then
    if HasPrefix link "/" then
      let parts := Split url "/"%char in
      if 3 <=? length parts then
        let baseURL := Join (take 3 parts) "/" in
        baseURL +:+ link
      else TrimSuffix url "/" +:+ link
    else
      (* fmt.Sprintf("%s/%s", strings.TrimSuffix(url, "/"), link) *)
      TrimSuffix url "/" +:+ "/" +:+ link
  else link.

(** The normaliser as the specification words it: four rules, tried in
    order. *)
Definition origin_of (baseURL : string) : string :=
  let segments := Split baseURL "/"%char in
  if decide (length segments < 3) then TrimSuffix baseURL "/"
  else Join (take 3 segments) "/".

Definition normalize_rules (baseURL href : string) : string :=
  if decide (href = "") then ""
  else if HasPrefix href "http" || HasPrefix href "mailto:" then href
  else if HasPrefix href "/" then origin_of baseURL +:+ href
  else TrimSuffix baseURL "/" +:+ "/" +:+ href.

(** ** Go slices over a store of backing arrays

    A slice value is a window on a backing array: the array, the index its
    first element has there, its length and its capacity.  Two slices on
    one array alias; [append] writes in place while the capacity allows and
    moves to a new array otherwise. *)

Record slice := Slice { ptr : nat; off : nat; len : nat; cap : nat }.

(** The arrays, by location. *)
Abbreviation store := (gmap nat (list string)).

Definition backing (h : store) (s : slice) : list string :=
  default [] (h !! ptr s).

(** The elements a slice shows: [s[0], ..., s[len(s)-1]]. *)
Definition elems (h : store) (s : slice) : list string :=
  take (len s) (drop (off s) (backing h s)).

(** [s[:j]] and [s[i:]]. *)
Definition slice_to (s : slice) (j : nat) : slice :=
  {| ptr := ptr s; off := off s; len := j; cap := cap s |}.

Definition slice_from (s : slice) (i : nat) : slice :=
  {| ptr := ptr s; off := off s + i; len := len s - i; cap := cap s - i |}.

(** [s[i] = v]. *)
Definition slice_set (h : store) (s : slice) (i : nat) (v : string) : store :=
  <[ptr s := <[off s + i := v]> (backing h s)]> h.

(** [s[i]]; the zero value stands for the run-time panic out of range,
    which no caller below can reach. *)
Definition slice_get (h : store) (s : slice) (i : nat) : string :=
  default "" (backing h s !! (off s + i)).

Definition alloc (h : store) (a : list string) : store * nat :=
  let l := fresh (dom h) in (<[l := a]> h, l).

(** [make([]string, n)]: a new array of [n] empty strings. *)
Definition make (h : store) (n : nat) : store * slice :=
  let '(h', l) := alloc h (replicate n "") in
  (h', {| ptr := l; off := 0; len := n; cap := n |}).

(** [copy(dst, src)]: the first [min(len(dst), len(src))] elements of [src]
    overwrite those of [dst]. *)
Definition copy (h : store) (dst src : slice) : store :=
  let n := len dst `min` len src in
  let vs := take n (elems h src) in
  <[ptr dst := list_inserts (off dst) vs (backing h dst)]> h.

Section Append.
(** How much capacity beyond the needed length the run time adds when a
    slice outgrows its array, from the old capacity and the needed
    length: the allocator's business, so any function will do. *)
Variable grow : nat -> nat -> nat.

(** [append(s, vs...)].  The values [vs] are read before anything is
    written, as the run time's overlapping move does. *)
Definition append (h : store) (s : slice) (vs : list string)
  : store * slice :=
  let n := len s + length vs in
  if n <=? cap s then
    (<[ptr s := list_inserts (off s + len s) vs (backing h s)]> h,
     {| ptr := ptr s; off := off s; len := n; cap := cap s |})
  else
    let extra := grow (cap s) n in
    let '(h', l) := alloc h (elems h s ++ vs ++ replicate extra "") in
    (h', {| ptr := l; off := 0; len := n; cap := n + extra |}).
End Append.

(** ** The recent-history tracker *)

(** The program's global state that the tracker touches: the arrays and the
    variable [visitedURLs].  Both functions hold [mu] from entry to return,
    so each is one atomic step on this state. *)
Record state := State { heap : store; visitedURLs : slice }.

(** [var visitedURLs []string]: the nil slice, as an empty window on an
    empty array (the program never compares the variable with nil). *)
Definition initial : state :=
  {| heap := {[ 0 := [] ]};
     visitedURLs := {| ptr := 0; off := 0; len := 0; cap := 0 |} |}.

(** What the history holds, oldest first. *)
Definition history (st : state) : list string :=
  elems (heap st) (visitedURLs st).

(** [for i, u := range visitedURLs { if u == url { ... return } }]: the
    index at which the loop body fires, if it does. *)
Fixpoint range_find (url : string) (us : list string) (i : nat) : option nat :=
  match us with
  | [] => None
  | u :: us' => if String.eqb u url then Some i else range_find url us' (S i)
  end.

Definition addToVisited (grow : nat -> nat -> nat) (url : string) (st : state)
  : state :=
  let h := heap st in
  let v := visitedURLs st in
  match range_find url (elems h v) 0 with
  | Some i =>
      let '(h1, v1) :=
        append grow h (slice_to v i) (elems h (slice_from v (i + 1))) in
      let '(h2, v2) := append grow h1 v1 [url] in
      {| heap := h2; visitedURLs := v2 |}
  | None =>
      let '(h1, v1) := append grow h v [url] in
      if 10 <? len v1 then {| heap := h1; visitedURLs := slice_from v1 1 |}
      else {| heap := h1; visitedURLs := v1 |}
  end.

(** [copied[i], copied[j] = copied[j], copied[i]]. *)
Definition swap (h : store) (s : slice) (i j : nat) : store :=
  let x := slice_get h s i in
  let y := slice_get h s j in
  slice_set (slice_set h s i y) s j x.

(** [for i, j := 0, len(copied)-1; i < j; i, j = i+1, j-1 { swap }].  On an
    empty slice Go starts [j] at -1 and the natural number is 0: the test
    [i < j] fails at once in both.  [fuel] bounds the iterations. *)
Fixpoint reverse_loop (fuel : nat) (h : store) (s : slice) (i j : nat)
  : store :=
  match fuel with
  | 0 => h
  | S fuel' =>
      if i <? j then reverse_loop fuel' (swap h s i j) s (i + 1) (j - 1)
      else h
  end.

(** [getVisited] returns the new slice; the state it leaves has the new
    array in it. *)
Definition getVisited (st : state) : state * slice :=
  let v := visitedURLs st in
  let '(h1, copied) := make (heap st) (len v) in
  let h2 := copy h1 copied v in
  let h3 := reverse_loop (len copied) h2 copied 0 (len copied - 1) in
  ({| heap := h3; visitedURLs := v |}, copied).

(** What a caller reads in the slice [getVisited] gave it. *)
Definition snapshot (r : state * slice) : list string :=
  elems (heap r.1) r.2.

(** A slice the run time can have made: its window, up to its capacity,
    lies inside an array of the store. *)
Definition valid (h : store) (s : slice) : Prop :=
  exists a, h !! ptr s = Some a /\ off s + cap s <= length a /\ len s <= cap s.

(** A state the program can be in. *)
Definition wf (st : state) : Prop := valid (heap st) (visitedURLs st).

(** The tracker as the specification words it, on plain lists. *)
Fixpoint remove_first (u : string) (l : list string) : list string :=
  match l with
  | [] => []
  | x :: l' => if decide (x = u) then l' else x :: remove_first u l'
  end.

Definition record (u : string) (l : list string) : list string :=
  if decide (u ∈ l) then remove_first u l ++ [u]
  else
    let l' := l ++ [u] in
    if decide (10 < length l') then drop 1 l' else l'.

Definition history_invariant (l : list string) : Prop :=
  length l <= 10 /\ NoDup l.

(** The requests the handler serves one after the other call
    [addToVisited] with their URLs in turn. *)
Definition visits (grow : nat -> nat -> nat) (urls : list string) (st : state)
  : state :=
  foldl (fun st url => addToVisited grow url st) st urls.

(** What a caller can do to the store through the slice it was given:
    overwrite the array behind it. *)
Definition overwrite (st : state) (s : slice) (a : list string) : state :=
  {| heap := <[ptr s := a]> (heap st); visitedURLs := visitedURLs st |}.

(** ** The scrape pipeline *)

(** Go's [error] values, as far as the program can tell them apart: the one
    [fmt.Errorf] builds is a message and nothing else; the others come from
    [net/http] and from the reader of the response body. *)
Inductive error :=
  | ErrorString (msg : string)
  | External (msg : string).

(** A Go result pair [(value, err)] with exactly one side set. *)
Inductive result (A : Type) :=
  | Ok (a : A)
  | Err (e : error).
Arguments Ok {A} a.
Arguments Err {A} e.

(** [html.Attribute] and the one node a [*goquery.Selection] holds inside
    [Each]: its text content and its attributes are all the program
    reads. *)
Record Attribute := { Key : string; Val : string }.
Record Selection := { Text : string; Attrs : list Attribute }.

(** [s.Attr(name)]: the value of the first attribute with that key and
    [true], or the empty string and [false]. *)
Definition Attr (s : Selection) (name : string) : string * bool :=
  match List.find (fun a => String.eqb (Key a) name) (Attrs s) with
  | Some a => (Val a, true)
  | None => ("", false)
  end.

(** A parsed document answers selector queries with the matched nodes in
    document order; the selector engine is goquery's. *)
Record Document := { Find : string -> list Selection }.

(** The response body is read once, by [goquery.NewDocumentFromReader]; it
    is given by what that call returns. *)
Record ReadCloser := { NewDocumentFromReader : result Document }.

Record Response := { StatusCode : Z; Status : string; Body : ReadCloser }.

Record ScrapeResult := { Title : string; Link : string }.

(** [%d] of an [int]. *)
Definition decimal (z : Z) : string := NilZero.string_of_int (Z.to_int z).

(** The function literal given to [Each], with [results] passed through;
    [normalize] is its block that rewrites [link]. *)
Definition each (url : string) (results : list ScrapeResult) (s : Selection)
  : list ScrapeResult :=
  let title := TrimSpace (Text s) in
  if String.eqb title "" then results
  else
    let link := (Attr s "href").1 in
    let link := normalize url link in
    results ++ [{| Title := title; Link := link |}].

(** [scrapeWebsite]; [http_Get] is [http.Get], the program's one access to
    the network. *)
Definition scrapeWebsite (http_Get : string -> result Response)
    (url selector : string) : result (list ScrapeResult) :=
  match http_Get url with
  | Err e => Err e
  | Ok res =>
      if negb (StatusCode res =? 200)%Z then
        Err (ErrorString ("status code error: " +:+ decimal (StatusCode res)
                          +:+ " " +:+ Status res))
      else
        match NewDocumentFromReader (Body res) with
        | Err e => Err e
        | Ok doc => Ok (foldl (each url) [] (Find doc selector))
        end
  end.

(** The result a node with non-blank text contributes. *)
Definition result_of (url : string) (s : Selection) : ScrapeResult :=
  {| Title := TrimSpace (Text s); Link := normalize url (Attr s "href").1 |}.

Definition blank (s : Selection) : bool := String.eqb (TrimSpace (Text s)) "".

(** ** The request handler *)

Record ScrapingSite :=
  { URL : string; Tag : string; Selector : string; Example : string }.

Definition recommendedSites : list ScrapingSite :=
  [ {| URL := "https://news.ycombinator.com"; Tag := "Tech News";
       Selector := ".titleline > a"; Example := "Hacker News headlines" |};
    {| URL := "https://www.reddit.com/r/golang/"; Tag := "Golang";
       Selector := "h3._eYtD2XCVieq6emjKBH3m";
       Example := "Reddit post titles" |};
    {| URL := "https://github.com/trending"; Tag := "GitHub";
       Selector := "h2 a"; Example := "Trending repositories" |} ].

(** [PageData]; [Visited] is the slice [getVisited] returned, to be read
    in the store, and [Duration] is in nanoseconds. *)
Module PageData.
Record t := Make
  { URL : string;
    Selector : string;
    Results : list ScrapeResult;
    Duration : Z;
    Error : string;
    Recommended : list ScrapingSite;
    Visited : slice }.
End PageData.

(** [url.Values] and its [Get]: the first value of the key, or the empty
    string when the key has no value. *)
Abbreviation Values := (gmap string (list string)).

Definition Get (v : Values) (key : string) : string :=
  match v !! key with
  | Some (x :: _) => x
  | _ => ""
  end.

(** [err.Error()], which [%v] prints. *)
Definition error_text (e : error) : string :=
  match e with
  | ErrorString msg => msg
  | External msg => msg
  end.

(** [for _, site := range recommendedSites { if site.URL == url { ...;
    break } }]: the site at which the loop body fires, if it does. *)
Definition matching_site (url : string) : option ScrapingSite :=
  List.find (fun site => String.eqb (URL site) url) recommendedSites.

(** [Handler], up to the [data] it hands to [tmpl.Execute]; the closure
    that [main] registers in the stand-alone program has the same body.
    [query] is [r.URL.Query()], and [elapsed] is what
    [time.Since(start).Round(time.Millisecond)] comes to around the call
    of [scrapeWebsite]. *)
Definition Handler (grow : nat -> nat -> nat)
    (http_Get : string -> result Response) (elapsed : Z)
    (query : Values) (st : state) : state * PageData.t :=
  let '(st, visited) := getVisited st in
  let url := Get query "url" in
  let selector := Get query "selector" in
  if negb (String.eqb url "") then
    let st := addToVisited grow url st in
    let selector :=
      if String.eqb selector "" then
        match matching_site url with
        | Some site => Selector site
        | None => selector
        end
      else selector in
    if negb (String.eqb selector "") then
      match scrapeWebsite http_Get url selector with
      | Err err =>
          (st, {| PageData.URL := url; PageData.Selector := selector;
                  PageData.Results := []; PageData.Duration := elapsed;
                  PageData.Error := "Error scraping: " +:+ error_text err;
                  PageData.Recommended := recommendedSites;
                  PageData.Visited := visited |})
      | Ok results =>
          (st, {| PageData.URL := url; PageData.Selector := selector;
                  PageData.Results := results; PageData.Duration := elapsed;
                  PageData.Error := "";
                  PageData.Recommended := recommendedSites;
                  PageData.Visited := visited |})
      end
    else
      (st, {| PageData.URL := url; PageData.Selector := selector;
              PageData.Results := []; PageData.Duration := 0;
              PageData.Error := "Please provide a CSS selector.";
              PageData.Recommended := recommendedSites;
              PageData.Visited := visited |})
  else
    (st, {| PageData.URL := ""; PageData.Selector := "";
            PageData.Results := []; PageData.Duration := 0;
            PageData.Error := "";
            PageData.Recommended := recommendedSites;
            PageData.Visited := visited |}).

(** The history list the page shows: [data.Visited] as the template reads
    it when the handler is done. *)
Definition shown_history (r : state * PageData.t) : list string :=
  elems (heap r.1) (PageData.Visited r.2).

(** The requests of a run, served one after the other. *)
Definition serve (grow : nat -> nat -> nat)
    (http_Get : string -> result Response) (elapsed : Z)
    (queries : list Values) (st : state) : state :=
  foldl (fun st query => (Handler grow http_Get elapsed query st).1) st queries.

(** ** The earlier, single-file version of the program

    [src/unnamed/part_000]: the same tracker and scraper before they were
    reworked, with the request's data kept in global variables. *)
Module Earlier.

(** [addToVisited]: a URL that is present makes the loop return at once. *)
Definition addToVisited (grow : nat -> nat -> nat) (url : string) (st : state)
  : state :=
  let h := heap st in
  let v := visitedURLs st in
  match range_find url (elems h v) 0 with
  | Some _ => st
  | None =>
      let '(h1, v1) := append grow h v [url] in
      if 10 <? len v1 then {| heap := h1; visitedURLs := slice_from v1 1 |}
      else {| heap := h1; visitedURLs := v1 |}
  end.

(** The rewriting of [link] in the function literal given to [Each]. *)
Definition resolve (url link : string) : string :=
  if negb (HasPrefix link "http") then
    if HasPrefix link "/" then TrimSuffix url "/" +:+ link
    else TrimSuffix url "/" +:+ "/" +:+ link
  else link.

(** The function literal given to [Each], with [results] passed through. *)
Definition each (url : string) (results : list ScrapeResult) (s : Selection)
  : list ScrapeResult :=
  let title := TrimSpace (Text s) in
  let link := (Attr s "href").1 in
  let link := resolve url link in
  results ++ [{| Title := title; Link := link |}].

(** The global variables of the request data; [scrapeDuration] is in
    nanoseconds, [resultCount] an [int]. *)
Record globals := Globals
  { currentResults : list ScrapeResult;
    currentURL : string;
    currentSelector : string;
    darkMode : bool;
    scrapeDuration : Z;
    resultCount : Z }.

(** [scrapeWebsite]; on success it also sets [scrapeDuration] and
    [resultCount].  [elapsed] is what [time.Since(startTime)] comes
    to. *)
Definition scrapeWebsite (http_Get : string -> result Response)
    (elapsed : Z) (url selector : string) (g : globals)
  : globals * result (list ScrapeResult) :=
  match http_Get url with
  | Err e => (g, Err e)
  | Ok res =>
      if negb (StatusCode res =? 200)%Z then
        (g, Err (ErrorString ("status code error: "
                              +:+ decimal (StatusCode res)
                              +:+ " " +:+ Status res)))
      else
        match NewDocumentFromReader (Body res) with
        | Err e => (g, Err e)
        | Ok doc =>
            let results := foldl (each url) [] (Find doc selector) in
            ({| currentResults := currentResults g;
                currentURL := currentURL g;
                currentSelector := currentSelector g;
                darkMode := darkMode g;
                scrapeDuration := elapsed;
                resultCount := Z.of_nat (length results) |},
             Ok results)
        end
  end.

(** What the closure registered in [main] writes: the text of a scrape
    error and nothing else, or the page that [renderPage] makes of the
    global variables. *)
Inductive reply :=
  | ErrorText (msg : string)
  | Page.

(** The closure registered in [main], up to the call of [renderPage]. *)
Definition handler (grow : nat -> nat -> nat)
    (http_Get : string -> result Response) (elapsed : Z)
    (query : Values) (st : state) (g : globals)
  : state * globals * reply :=
  let g :=
    if String.eqb (Get query "theme") "toggle" then
      {| currentResults := currentResults g; currentURL := currentURL g;
         currentSelector := currentSelector g; darkMode := negb (darkMode g);
         scrapeDuration := scrapeDuration g; resultCount := resultCount g |}
    else g in
  let url := Get query "url" in
  let selector := Get query "selector" in
  if negb (String.eqb url "") then
    let st := addToVisited grow url st in
    let selector' :=
      if String.eqb selector "" then
        match matching_site url with
        | Some site => Selector site
        | None => selector
        end
      else selector in
    let g :=
      {| currentResults := currentResults g; currentURL := url;
         currentSelector := selector'; darkMode := darkMode g;
         scrapeDuration := scrapeDuration g; resultCount := resultCount g |} in
    if negb (String.eqb selector' "") then
      match scrapeWebsite http_Get elapsed url selector' g with
      | (g, Err err) =>
          (st, g, ErrorText ("Error scraping website: " +:+ error_text err))
      | (g, Ok results) =>
          (st,
           {| currentResults := results; currentURL := currentURL g;
              currentSelector := currentSelector g; darkMode := darkMode g;
              scrapeDuration := scrapeDuration g;
              resultCount := resultCount g |},
           Page)
      end
    else (st, g, Page)
  else (st, g, Page).

End Earlier.

(** ** Predicates for stating properties of the normaliser *)

(** The byte [c] occurs in [s]. *)
Fixpoint has_byte (c : Ascii.ascii) (s : string) : bool :=
  match s with
  | EmptyString => false
  | String d s' => Ascii.eqb d c || has_byte c s'
  end.

(** An href that rule 4 takes: not empty, and starting with none of "http",
    "mailto:" and "/". *)
Definition path_relative (href : string) : Prop :=
  href <> "" /\ HasPrefix href "http" = false
  /\ HasPrefix href "mailto:" = false /\ HasPrefix href "/" = false.

(** * Properties *)

(** ** The definitions on concrete inputs *)

Example Split_url :
  Split "https://example.com/a/b" "/"%char
  = ["https:"; ""; "example.com"; "a"; "b"].
Proof. reflexivity. Qed.

Example Split_empty : Split "" "/"%char = [""].
Proof. reflexivity. Qed.

Example TrimSuffix_once : TrimSuffix "https://example.com//" "/"
                          = "https://example.com/".
Proof. reflexivity. Qed.

Example TrimSpace_unicode :
  TrimSpace (bytes [0x20; 0xC2; 0xA0] +:+ "Go  1"
             +:+ bytes [0xE3; 0x80; 0x80; 0x0A])
  = "Go  1".
Proof. reflexivity. Qed.

Example normalize_mailto :
  normalize "https://example.com" "mailto:x@y.com" = "mailto:x@y.com".
Proof. reflexivity. Qed.

Example normalize_short_base : normalize "example.com/" "/c" = "example.com/c".
Proof. reflexivity. Qed.

Example eleventh_evicts_oldest :
  history (visits (fun c _ => c)
             ["1"; "2"; "3"; "4"; "5"; "6"; "7"; "8"; "9"; "10"; "11"] initial)
  = ["2"; "3"; "4"; "5"; "6"; "7"; "8"; "9"; "10"; "11"].
Proof. vm_compute. reflexivity. Qed.

Example repeat_moves_to_end :
  snapshot (getVisited (visits (fun c _ => c) ["a"; "b"; "c"; "a"] initial))
  = ["a"; "c"; "b"].
Proof. vm_compute. reflexivity. Qed.

(** ** Strings *)

Lemma append_cons c (s t : string) : String c s +:+ t = String c (s +:+ t).
Proof. reflexivity. Qed.

Lemma append_empty_l (s : string) : "" +:+ s = s.
Proof. reflexivity. Qed.

Lemma str_take_drop n s : str_take n s +:+ str_drop n s = s.
Proof.
  revert s; induction n as [|n IH]; intros [|c s]; simpl; try done.
  by rewrite append_cons, IH.
Qed.

Lemma length_str_drop n s : String.length (str_drop n s) = String.length s - n.
Proof. revert s; induction n as [|n IH]; intros [|c s]; simpl; auto. Qed.

Lemma length_str_take n s :
  String.length (str_take n s) = n `min` String.length s.
Proof. revert s; induction n as [|n IH]; intros [|c s]; simpl; auto. Qed.

Lemma length_append (s t : string) :
  String.length (s +:+ t) = String.length s + String.length t.
Proof.
  induction s as [|c s IH]; [done|]. rewrite append_cons. simpl. by rewrite IH.
Qed.

Lemma str_take_app w s : str_take (String.length w) (w +:+ s) = w.
Proof.
  induction w as [|c w IH]; [by destruct s|].
  rewrite append_cons. simpl. by rewrite IH.
Qed.

Lemma str_drop_app w s : str_drop (String.length w) (w +:+ s) = s.
Proof.
  induction w as [|c w IH]; [by destruct s|].
  rewrite append_cons. simpl. by rewrite IH.
Qed.

Lemma str_take_take n m s : n <= m -> str_take n (str_take m s) = str_take n s.
Proof.
  revert m s; induction n as [|n IH]; intros [|m] [|c s] Hle; simpl;
    try done; try lia.
  rewrite IH; [done | lia].
Qed.

Lemma HasPrefix_spec s pre :
  HasPrefix s pre = true <-> exists t, s = pre +:+ t.
Proof.
  unfold HasPrefix. rewrite andb_true_iff, Nat.leb_le, String.eqb_eq. split.
  - intros [_ Heq]. exists (str_drop (String.length pre) s).
    rewrite <- (str_take_drop (String.length pre) s) at 1. by rewrite Heq.
  - intros [t ->]. rewrite length_append, str_take_app. split; [lia | done].
Qed.

Lemma append_assoc (a b c : string) : (a +:+ b) +:+ c = a +:+ (b +:+ c).
Proof.
  induction a as [|x a IH]; [done|]. by rewrite !append_cons, IH.
Qed.

Lemma str_take_all s : str_take (String.length s) s = s.
Proof. induction s as [|c s IH]; simpl; [done | by rewrite IH]. Qed.

Lemma str_take_min n m s : str_take n (str_take m s) = str_take (n `min` m) s.
Proof.
  revert m s; induction n as [|n IH]; intros [|m] [|c s]; simpl; try done.
  by rewrite IH.
Qed.

Lemma HasPrefix_take s pre m :
  HasPrefix (str_take m s) pre = true -> HasPrefix s pre = true.
Proof.
  rewrite !HasPrefix_spec. intros [t Ht].
  exists (t +:+ str_drop m s).
  by rewrite <- append_assoc, <- Ht, str_take_drop.
Qed.

(** ** White space and [TrimSpace] *)

Lemma space_encodings_nonempty e :
  In e space_encodings -> 0 < String.length e.
Proof.
  intros H. apply list_elem_of_In in H. revert e H.
  apply Forall_forall. repeat constructor.
Qed.

Lemma leading_space_Some s w :
  leading_space s = Some w ->
  exists enc t,
    In enc space_encodings /\ s = enc +:+ t /\ w = String.length enc.
Proof.
  unfold leading_space. intros H.
  apply fmap_Some in H as (enc & Hf & ->).
  apply find_some in Hf as [Hin Hp]. apply HasPrefix_spec in Hp as [t ->].
  by exists enc, t.
Qed.

Lemma leading_space_None s :
  leading_space s = None <->
  forall enc, In enc space_encodings -> HasPrefix s enc = false.
Proof.
  unfold leading_space. rewrite fmap_None. split.
  - intros H enc Hin. by eapply find_none in H.
  - intros H.
    destruct (List.find (HasPrefix s) space_encodings) as [enc|] eqn:Hf;
      [|done].
    apply find_some in Hf as [Hin Hp]. rewrite (H _ Hin) in Hp. done.
Qed.

Lemma leading_space_take s m :
  leading_space s = None -> leading_space (str_take m s) = None.
Proof.
  rewrite !leading_space_None. intros H enc Hin.
  destruct (HasPrefix (str_take m s) enc) eqn:Hp; [|done].
  apply HasPrefix_take in Hp. by rewrite (H _ Hin) in Hp.
Qed.

Lemma trim_left_done fuel s :
  String.length s <= fuel -> leading_space (trim_left fuel s) = None.
Proof.
  revert s; induction fuel as [|fuel IH]; intros s Hlen; simpl.
  - destruct s; [done | simpl in Hlen; lia].
  - destruct (leading_space s) as [w|] eqn:Hs; [|done].
    apply IH. rewrite length_str_drop.
    apply leading_space_Some in Hs as (enc & t & Hin & -> & ->).
    apply space_encodings_nonempty in Hin. lia.
Qed.

Lemma trim_right_take fuel s : exists m, trim_right fuel s = str_take m s.
Proof.
  revert s; induction fuel as [|fuel IH]; intros s; simpl.
  - exists (String.length s). by rewrite str_take_all.
  - destruct (trailing_space s) as [w|].
    + destruct (IH (str_take (String.length s - w) s)) as [m ->].
      rewrite str_take_min. eauto.
    + exists (String.length s). by rewrite str_take_all.
Qed.

Lemma AllSpace_leading s : AllSpace s -> s <> "" -> leading_space s <> None.
Proof.
  intros [|w t Hin Ht] Hne; [done|].
  rewrite leading_space_None. intros H. specialize (H _ Hin).
  assert (HasPrefix (w +:+ t) w = true) by (apply HasPrefix_spec; eauto).
  congruence.
Qed.

(** What [TrimSpace] leaves is empty or is not white space only. *)
Lemma TrimSpace_not_space s : TrimSpace s <> "" -> ~ AllSpace (TrimSpace s).
Proof.
  unfold TrimSpace. intros Hne Hall.
  destruct (trim_right_take
              (String.length (trim_left (String.length s) s))
              (trim_left (String.length s) s)) as [m Hm].
  rewrite Hm in Hne, Hall.
  apply (AllSpace_leading _ Hall Hne).
  apply leading_space_take, trim_left_done. lia.
Qed.

(** ** The link normaliser *)

Lemma normalize_absolute url link :
  HasPrefix link "http" = true -> normalize url link = link.
Proof.
  intros H. unfold normalize. rewrite H. simpl.
  by rewrite andb_false_r.
Qed.

Lemma HasPrefix_false_head s c d pre :
  c <> d -> HasPrefix (String c s) (String d pre) = false.
Proof.
  intros Hne. destruct (HasPrefix _ _) eqn:Hp; [|done].
  apply HasPrefix_spec in Hp as [t Ht]. rewrite append_cons in Ht.
  congruence.
Qed.

Lemma normalize_as_rules baseURL href :
  normalize baseURL href = normalize_rules baseURL href.
Proof.
  unfold normalize, normalize_rules, origin_of.
  destruct (decide (href = "")) as [->|Hne]; [done|].
  apply String.eqb_neq in Hne. rewrite Hne. cbn [negb andb orb].
  destruct (HasPrefix href "http"); cbn [negb andb orb]; [done|].
  destruct (HasPrefix href "mailto:"); cbn [negb andb orb]; [done|].
  destruct (HasPrefix href "/"); [|done].
  destruct (Nat.leb_spec 3 (length (Split baseURL "/"%char)));
    case_decide; try lia; done.
Qed.

(** C1. The normaliser is the four rules of the specification in their
    order of precedence: an empty href gives the empty string; an href
    starting with "http" or "mailto:" is returned as it is; an href
    starting with "/" is put after the first three "/"-separated segments
    of the base (after the base without one trailing "/" when it has fewer
    than three); any other href is put after the base without one trailing
    "/" and a "/".  The two examples of the specification evaluate as it
    says. *)
Theorem normalize_follows_rules :
  (forall baseURL href, normalize baseURL href = normalize_rules baseURL href)
  /\ normalize "https://example.com/a/b" "/c" = "https://example.com/c"
  /\ normalize "https://example.com/a/b" "c" = "https://example.com/a/b/c".
Proof.
  split; [apply normalize_as_rules | split; reflexivity].
Qed.

(** C3, as the specification has it, fails: rule 4 is not the rule that a
    protocol-relative href meets. *)
Lemma protocol_relative_not_rule4 :
  HasPrefix "//host/path" "//" = true
  /\ normalize "https://example.com/a/b" "//host/path"
     = "https://example.com//host/path"
  /\ normalize "https://example.com/a/b" "//host/path"
     <> TrimSuffix "https://example.com/a/b" "/" +:+ "/" +:+ "//host/path".
Proof. split; [|split]; [reflexivity | reflexivity | by vm_compute]. Qed.

(** C3, amended. An href that begins with "//" is not special-cased: it
    begins with "/", so it is handled by rule 3, the root-relative branch,
    and is put directly after the origin of the base (after the base
    without one trailing "/" when the base has fewer than three segments),
    where its two slashes follow. *)
Theorem protocol_relative_is_root_relative baseURL href :
  HasPrefix href "//" = true ->
  normalize baseURL href = origin_of baseURL +:+ href
  /\ exists rest, normalize baseURL href = origin_of baseURL +:+ "//" +:+ rest.
Proof.
  intros H. apply HasPrefix_spec in H as [rest ->].
  assert (normalize baseURL ("//" +:+ rest)
          = origin_of baseURL +:+ "//" +:+ rest) as Heq.
  { rewrite normalize_as_rules. unfold normalize_rules.
    destruct (decide ("//" +:+ rest = "")) as [Habs|_]; [done|].
    rewrite !append_cons, !HasPrefix_false_head by done.
    cbn [negb andb orb].
    assert (HasPrefix (String "/" (String "/" ("" +:+ rest))) "/" = true)
      as -> by (apply HasPrefix_spec; eexists; by rewrite append_cons).
    done. }
  split; [done | by exists rest].
Qed.

Lemma protocol_relative_is_root_relative_witness :
  normalize "https://example.com/a/b" "//host/path"
  = origin_of "https://example.com/a/b" +:+ "//host/path".
Proof.
  apply (protocol_relative_is_root_relative
           "https://example.com/a/b" "//host/path").
  reflexivity.
Defined.

(** C8. On an href that starts with "http" the normaliser is idempotent:
    normalising its own result against the same base changes nothing. *)
Theorem normalize_idempotent_absolute base href :
  HasPrefix href "http" = true ->
  normalize base (normalize base href) = normalize base href.
Proof.
  intros H. by rewrite !(normalize_absolute base href H).
Qed.

Lemma normalize_idempotent_absolute_witness :
  normalize "https://example.com"
    (normalize "https://example.com" "http://a.b/c")
  = normalize "https://example.com" "http://a.b/c".
Proof.
  apply (normalize_idempotent_absolute "https://example.com" "http://a.b/c").
  reflexivity.
Defined.

(** ** Slices *)

Lemma list_inserts_app (a vs : list string) i :
  i + length vs <= length a ->
  list_inserts i vs a = take i a ++ vs ++ drop (i + length vs) a.
Proof.
  revert i; induction vs as [|v vs IH]; intros i Hle; simpl in *.
  - by rewrite Nat.add_0_r, take_drop.
  - rewrite IH by lia.
    destruct (lookup_lt_is_Some_2 a i) as [x Hx]; [lia|].
    rewrite (take_S_r a i x Hx), <- app_assoc.
    rewrite insert_app_r_alt by (rewrite length_take; lia).
    rewrite length_take, Nat.min_l, Nat.sub_diag by lia. simpl.
    by rewrite Nat.add_succ_r.
Qed.

Lemma valid_length_elems h s : valid h s -> length (elems h s) = len s.
Proof.
  intros (a & Ha & Hcap & Hlen). unfold elems, backing. rewrite Ha. simpl.
  rewrite length_take, length_drop. lia.
Qed.

Lemma elems_lookup h s a :
  h !! ptr s = Some a -> elems h s = take (len s) (drop (off s) a).
Proof. intros Ha. unfold elems, backing. by rewrite Ha. Qed.

Lemma valid_slice_to h s j : valid h s -> j <= len s -> valid h (slice_to s j).
Proof.
  intros (a & Ha & Hcap & Hlen) Hj. exists a. simpl. repeat split; [done|lia..].
Qed.

Lemma elems_slice_to h s j :
  valid h s -> j <= len s -> elems h (slice_to s j) = take j (elems h s).
Proof.
  intros (a & Ha & _) Hj. rewrite (elems_lookup h s a Ha).
  rewrite (elems_lookup h (slice_to s j) a Ha). simpl.
  by rewrite take_take, Nat.min_l.
Qed.

Lemma valid_slice_from h s i :
  valid h s -> i <= len s -> valid h (slice_from s i).
Proof.
  intros (a & Ha & Hcap & Hlen) Hi. exists a. simpl. repeat split; [done|lia..].
Qed.

Lemma elems_slice_from h s i :
  valid h s -> elems h (slice_from s i) = drop i (elems h s).
Proof.
  intros (a & Ha & _). rewrite (elems_lookup h s a Ha).
  rewrite (elems_lookup h (slice_from s i) a Ha). simpl.
  rewrite <- drop_drop. apply list_eq; intros k.
  rewrite lookup_drop. destruct (decide (k < len s - i)).
  - by rewrite !lookup_take_lt, !lookup_drop by lia.
  - by rewrite !lookup_take_ge by lia.
Qed.

Section Append_facts.
Variable grow : nat -> nat -> nat.

(** [append] gives a valid slice that shows the old elements followed by
    the new ones, in place or in a new array. *)
Lemma append_spec h s vs :
  valid h s ->
  exists h' s',
    append grow h s vs = (h', s')
    /\ valid h' s'
    /\ elems h' s' = elems h s ++ vs
    /\ len s' = len s + length vs.
Proof.
  intros Hv. pose proof (valid_length_elems h s Hv) as Hlen.
  destruct Hv as (a & Ha & Hcap & Hle). unfold append.
  destruct (Nat.leb_spec (len s + length vs) (cap s)) as [Hfit|Hgrow].
  - eexists _, _. split; [done|]. split; [|split; [|done]].
    + eexists. simpl. rewrite lookup_insert_eq. split; [done|].
      rewrite length_inserts. unfold backing. rewrite Ha. simpl. lia.
    + erewrite (elems_lookup (<[_:=_]> h)) by (simpl; apply lookup_insert_eq).
      rewrite (elems_lookup h s a Ha). unfold backing. rewrite Ha. simpl.
      rewrite list_inserts_app by lia.
      rewrite drop_app_le by (rewrite length_take; lia).
      rewrite <- take_drop_commute, app_assoc.
      apply take_app_length'.
      rewrite length_app, length_take, length_drop. lia.
  - unfold alloc. eexists _, _. split; [done|]. split; [|split; [|done]].
    + eexists. simpl. rewrite lookup_insert_eq. split; [done|].
      rewrite !length_app, length_replicate, Hlen. lia.
    + erewrite (elems_lookup (<[_:=_]> h)) by (simpl; apply lookup_insert_eq).
      simpl. rewrite drop_0, app_assoc. apply take_app_length'.
      rewrite length_app. lia.
Qed.
End Append_facts.

(** ** The recent-history tracker *)

Lemma range_find_Some url us k i :
  range_find url us k = Some i ->
  exists l1 l2, us = l1 ++ url :: l2 /\ (url ∉ l1) /\ i = k + length l1.
Proof.
  revert k; induction us as [|u us IH]; intros k H; simpl in H; [done|].
  destruct (String.eqb_spec u url) as [->|Hne].
  - exists [], us. inversion H. split; [done|].
    split; [apply not_elem_of_nil | simpl; lia].
  - apply IH in H as (l1 & l2 & -> & Hnot & ->).
    exists (u :: l1), l2. split; [done|].
    split; [by apply not_elem_of_cons | simpl; lia].
Qed.

Lemma range_find_None url us k : range_find url us k = None -> url ∉ us.
Proof.
  revert k; induction us as [|u us IH]; intros k H; simpl in H;
    [apply not_elem_of_nil|].
  destruct (String.eqb_spec u url) as [->|Hne]; [done|].
  apply IH in H. by apply not_elem_of_cons.
Qed.

Lemma remove_first_app u l1 l2 :
  u ∉ l1 -> remove_first u (l1 ++ u :: l2) = l1 ++ l2.
Proof.
  induction l1 as [|x l1 IH]; intros Hnot; simpl.
  - by rewrite decide_True.
  - rewrite decide_False by set_solver. rewrite IH; [done | set_solver].
Qed.

Section Tracker.
Variable grow : nat -> nat -> nat.

(** [addToVisited], whatever the allocator does, is [record] on what the
    history holds, and leaves a state the program can be in. *)
Lemma addToVisited_record url st :
  wf st ->
  wf (addToVisited grow url st)
  /\ history (addToVisited grow url st) = record url (history st).
Proof.
  destruct st as [h v]. unfold wf, history, addToVisited. simpl.
  intros Hv. pose proof (valid_length_elems h v Hv) as Hlen.
  destruct (range_find url (elems h v) 0) as [i|] eqn:Hfind.
  - apply range_find_Some in Hfind as (l1 & l2 & Hus & Hnot & ->).
    simpl. rewrite Hus, length_app in Hlen. simpl in Hlen.
    destruct (append_spec grow h (slice_to v (length l1))
                (elems h (slice_from v (length l1 + 1))))
      as (h1 & v1 & -> & Hv1 & He1 & _);
      [apply valid_slice_to; [done | lia] |].
    destruct (append_spec grow h1 v1 [url] Hv1)
      as (h2 & v2 & -> & Hv2 & He2 & _).
    simpl. split; [done|].
    rewrite He2, He1, (elems_slice_to h v) by (done || lia).
    rewrite (elems_slice_from h v) by done. rewrite Hus.
    rewrite take_app_length.
    rewrite drop_app_ge by lia.
    replace (length l1 + 1 - length l1) with 1 by lia. simpl. rewrite drop_0.
    unfold record.
    rewrite decide_True
      by (apply elem_of_app; right; apply list_elem_of_here).
    by rewrite remove_first_app.
  - apply range_find_None in Hfind.
    destruct (append_spec grow h v [url] Hv)
      as (h1 & v1 & -> & Hv1 & He1 & Hl1).
    simpl in Hl1. unfold record. rewrite decide_False by done. simpl.
    rewrite length_app, Hlen. simpl.
    destruct (Nat.ltb_spec 10 (len v1)); simpl.
    + rewrite decide_True by lia. split.
      * apply valid_slice_from; [done | lia].
      * by rewrite (elems_slice_from h1 v1), He1.
    + by rewrite decide_False by lia.
Qed.
End Tracker.

(** *** [record] on plain lists *)

Lemma record_present u l1 l2 :
  u ∉ l1 -> record u (l1 ++ u :: l2) = l1 ++ l2 ++ [u].
Proof.
  intros Hnot. unfold record.
  rewrite decide_True by (apply elem_of_app; right; apply list_elem_of_here).
  by rewrite remove_first_app, app_assoc.
Qed.

Lemma record_present_length u l : u ∈ l -> length (record u l) = length l.
Proof.
  intros Hin. apply list_elem_of_split_l in Hin as (l1 & l2 & -> & Hnot).
  rewrite record_present by done. rewrite !length_app. simpl. lia.
Qed.

Lemma record_invariant u l :
  history_invariant l -> history_invariant (record u l).
Proof.
  intros [Hlen Hnd]. destruct (decide (u ∈ l)) as [Hin|Hnot].
  - split; [by rewrite record_present_length|].
    apply list_elem_of_split_l in Hin as (l1 & l2 & -> & Hnot1).
    rewrite record_present by done.
    eapply NoDup_Permutation_proper; [|exact Hnd].
    rewrite (Permutation_app_comm l2 [u]). done.
  - unfold record. rewrite decide_False by done. simpl.
    assert (NoDup (l ++ [u])) as Hnd'.
    { apply NoDup_app. split; [done|]. split; [|apply NoDup_singleton].
      intros x Hx Hxu. apply list_elem_of_singleton in Hxu. by subst. }
    rewrite length_app. simpl. case_decide.
    + split; [rewrite length_drop, length_app; simpl; lia|].
      eapply sublist_NoDup; [exact Hnd' | apply sublist_drop].
    + split; [rewrite length_app; simpl; lia | done].
Qed.

(** After two different URLs are recorded, they are the last two entries. *)
Lemma record_two u1 u2 l :
  u1 <> u2 -> exists l', record u2 (record u1 l) = l' ++ [u1; u2].
Proof.
  intros Hne.
  assert (exists k, record u1 l = k ++ [u1]) as [k ->].
  { unfold record. case_decide; [eauto|]. simpl. case_decide; [|eauto].
    destruct l as [|x l]; [simpl in *; lia|]. simpl. rewrite drop_0. eauto. }
  destruct (decide (u2 ∈ k ++ [u1])) as [Hin|Hnot].
  - apply elem_of_app in Hin as [Hin|Hin];
      [|apply list_elem_of_singleton in Hin; congruence].
    apply list_elem_of_split_l in Hin as (k1 & k2 & -> & Hnot).
    rewrite <- app_assoc. simpl. rewrite record_present by done.
    exists (k1 ++ k2). by rewrite <- !app_assoc.
  - unfold record. rewrite decide_False by done. simpl.
    rewrite <- app_assoc. simpl. case_decide; [|eauto].
    destruct k as [|x k]; [simpl in *; lia|]. simpl. rewrite drop_0. eauto.
Qed.

(** *** [getVisited] *)

Lemma insert_middle (A : list string) x y rest n :
  n = length A -> <[n := y]> (A ++ x :: rest) = A ++ y :: rest.
Proof.
  intros ->. rewrite insert_app_r_alt by lia. by rewrite Nat.sub_diag.
Qed.

Lemma swap_ends h s i A x m y b :
  h !! ptr s = Some (A ++ x :: m ++ y :: b) ->
  length A = off s + i ->
  swap h s i (i + length m + 1) = <[ptr s := A ++ y :: m ++ x :: b]> h.
Proof.
  intros Hh HA. unfold swap, slice_get, slice_set, backing.
  rewrite lookup_insert_eq, Hh. simpl.
  assert ((A ++ x :: m ++ y :: b) !! (off s + i) = Some x) as ->
    by (apply list_lookup_middle; lia).
  assert ((A ++ x :: m ++ y :: b) !! (off s + (i + length m + 1)) = Some y)
    as ->.
  { change (A ++ x :: m ++ y :: b) with (A ++ (x :: m) ++ y :: b).
    rewrite app_assoc. apply list_lookup_middle.
    rewrite length_app. simpl. lia. }
  simpl. rewrite insert_insert_eq. f_equal.
  rewrite (insert_middle A x y) by lia.
  change (A ++ y :: m ++ y :: b) with (A ++ (y :: m) ++ y :: b).
  rewrite app_assoc, (insert_middle (A ++ y :: m) y x)
    by (rewrite length_app; simpl; lia).
  by rewrite <- app_assoc.
Qed.

(** The swap loop reverses the stretch between its two indices; a fuel of
    the stretch's length is enough for it to come to its end. *)
Lemma reverse_loop_spec s fuel : forall m A b h i,
  length m <= fuel ->
  h !! ptr s = Some (A ++ m ++ b) ->
  length A = off s + i ->
  reverse_loop fuel h s i (i + length m - 1)
  = <[ptr s := A ++ reverse m ++ b]> h.
Proof.
  induction fuel as [|fuel IH]; intros m A b h i Hfuel Hh HA.
  - destruct m; [|simpl in Hfuel; lia]. simpl. by rewrite insert_id.
  - simpl. destruct m as [|x m]; [|destruct m as [|y m _] using rev_ind].
    + simpl. destruct (Nat.ltb_spec i (i + 0 - 1)); [lia|].
      by rewrite insert_id.
    + simpl. destruct (Nat.ltb_spec i (i + 1 - 1)); [lia|].
      by rewrite insert_id.
    + simpl in Hfuel. rewrite length_app in Hfuel. simpl in Hfuel.
      replace (i + length (x :: m ++ [y]) - 1) with (i + length m + 1)
        by (simpl; rewrite length_app; simpl; lia).
      destruct (Nat.ltb_spec i (i + length m + 1)); [|lia].
      simpl in Hh. rewrite <- app_assoc in Hh. simpl in Hh.
      rewrite (swap_ends h s i A x m y b Hh HA).
      replace (i + length m + 1 - 1) with (i + 1 + length m - 1) by lia.
      rewrite (IH m (A ++ [y]) (x :: b)).
      * rewrite insert_insert_eq. f_equal.
        rewrite reverse_cons, reverse_snoc, <- !app_assoc. done.
      * lia.
      * rewrite lookup_insert_eq. by rewrite <- app_assoc.
      * rewrite length_app. simpl. lia.
Qed.

Lemma valid_ptr_dom h s : valid h s -> ptr s ∈ dom h.
Proof. intros (a & Ha & _). apply elem_of_dom. eauto. Qed.

Lemma fresh_not_valid_ptr h s : valid h s -> fresh (dom h) <> ptr s.
Proof.
  intros Hv Heq. apply valid_ptr_dom in Hv. rewrite <- Heq in Hv.
  by apply is_fresh in Hv.
Qed.

(** [getVisited] in closed form: one new array, holding the history
    reversed, is added to the store, and nothing else changes. *)
Lemma getVisited_spec st :
  wf st ->
  getVisited st =
    ({| heap := <[fresh (dom (heap st)) := reverse (history st)]> (heap st);
        visitedURLs := visitedURLs st |},
     {| ptr := fresh (dom (heap st)); off := 0;
        len := len (visitedURLs st); cap := len (visitedURLs st) |}).
Proof.
  destruct st as [h v]. unfold wf, history, getVisited, make, alloc, copy.
  simpl. intros Hv.
  pose proof (valid_length_elems h v Hv) as Hlen.
  pose proof (fresh_not_valid_ptr h v Hv) as Hne.
  set (l := fresh (dom h)) in *.
  assert (elems (<[l := replicate (len v) ""]> h) v = elems h v) as ->.
  { unfold elems, backing. by rewrite lookup_insert_ne. }
  unfold backing at 1. simpl. rewrite lookup_insert_eq. simpl.
  rewrite Nat.min_id, insert_insert_eq.
  rewrite take_ge by lia.
  rewrite list_inserts_app by (rewrite length_replicate; simpl; lia).
  rewrite take_0, drop_ge by (rewrite length_replicate; simpl; lia).
  simpl. rewrite app_nil_r.
  pose proof (reverse_loop_spec
                {| ptr := l; off := 0; len := len v; cap := len v |}
                (len v) (elems h v) [] [] (<[l := elems h v]> h) 0) as Hloop.
  simpl in Hloop. rewrite Hlen in Hloop.
  rewrite Hloop; [|lia|by rewrite lookup_insert_eq, app_nil_r|done].
  by rewrite insert_insert_eq, app_nil_r.
Qed.

Lemma snapshot_getVisited st :
  wf st -> snapshot (getVisited st) = reverse (history st).
Proof.
  intros Hwf. rewrite (getVisited_spec st Hwf). unfold snapshot. simpl.
  erewrite elems_lookup by (simpl; apply lookup_insert_eq). simpl.
  rewrite drop_0. apply take_ge. rewrite length_reverse.
  unfold history. by rewrite (valid_length_elems _ _ Hwf).
Qed.

Lemma wf_initial : wf initial.
Proof. exists []. simpl. repeat split; lia || done. Qed.

Section Tracker_claims.
Variable grow : nat -> nat -> nat.

Lemma visits_record urls : forall st,
  wf st ->
  wf (visits grow urls st)
  /\ history (visits grow urls st)
     = foldl (fun l u => record u l) (history st) urls.
Proof.
  induction urls as [|u urls IH]; intros st Hwf; simpl; [done|].
  destruct (addToVisited_record grow u st Hwf) as [Hwf' <-].
  by apply IH.
Qed.

Lemma wf_overwrite st s a :
  wf st -> ptr s <> ptr (visitedURLs st) ->
  wf (overwrite st s a) /\ history (overwrite st s a) = history st.
Proof.
  intros (b & Hb & Hcap & Hlen) Hne. split.
  - exists b. simpl. by rewrite lookup_insert_ne.
  - unfold history, elems, backing. simpl. by rewrite lookup_insert_ne.
Qed.
(** C2. From every state the program can be in, [addToVisited] of a URL
    that is present removes it from its position and appends it at the
    end, the length staying what it was; of a URL that is absent, it
    appends it and then drops the front entry if the length exceeds 10.
    [getVisited] returns the entries newest first, the reverse of the
    stored order.  Hence after two different URLs are recorded one after
    the other, the snapshot starts with the second and then the first. *)
Theorem record_and_snapshot st u u1 u2 :
  wf st -> u1 <> u2 ->
  history (addToVisited grow u st) = record u (history st)
  /\ (forall l1 l2,
        history st = l1 ++ u :: l2 -> u ∉ l1 ->
        history (addToVisited grow u st) = l1 ++ l2 ++ [u]
        /\ length (history (addToVisited grow u st)) = length (history st))
  /\ (u ∉ history st ->
      history (addToVisited grow u st)
      = if decide (10 < length (history st ++ [u]))
        then drop 1 (history st ++ [u]) else history st ++ [u])
  /\ snapshot (getVisited st) = reverse (history st)
  /\ exists rest,
       snapshot (getVisited (addToVisited grow u2 (addToVisited grow u1 st)))
       = u2 :: u1 :: rest.
Proof.
  intros Hwf Hne.
  destruct (addToVisited_record grow u st Hwf) as [_ Hrec].
  split; [done|]. split; [|split; [|split]].
  - intros l1 l2 Hl Hnot. rewrite Hrec, Hl, record_present by done.
    split; [done|]. rewrite !length_app. simpl. lia.
  - intros Hnot. rewrite Hrec. unfold record. by rewrite decide_False.
  - by apply snapshot_getVisited.
  - destruct (addToVisited_record grow u1 st Hwf) as [Hwf1 Hrec1].
    destruct (addToVisited_record grow u2 _ Hwf1) as [Hwf2 Hrec2].
    rewrite snapshot_getVisited, Hrec2, Hrec1 by done.
    destruct (record_two u1 u2 (history st) Hne) as [l' ->].
    exists (reverse l').
    change [u1; u2] with ([u1] ++ [u2]).
    by rewrite app_assoc, !reverse_snoc.
Qed.

(** C7. The history holds at most 10 entries and no entry twice: in the
    initial state, after [addToVisited] from every state where it held,
    and so after every sequence of recorded URLs. *)
Theorem history_invariant_kept :
  history_invariant (history initial)
  /\ (forall st u,
        wf st -> history_invariant (history st) ->
        wf (addToVisited grow u st)
        /\ history_invariant (history (addToVisited grow u st)))
  /\ (forall urls, history_invariant (history (visits grow urls initial))).
Proof.
  assert (history_invariant (history initial)) as Hinit.
  { split; [simpl; lia | apply NoDup_nil_2]. }
  split; [done|]. split.
  - intros st u Hwf Hinv.
    destruct (addToVisited_record grow u st Hwf) as [Hwf' ->].
    split; [done | by apply record_invariant].
  - intros urls.
    destruct (visits_record urls initial wf_initial) as [_ ->].
    revert Hinit. generalize (history initial).
    induction urls as [|u urls IH]; intros l Hl; simpl; [done|].
    by apply IH, record_invariant.
Qed.

(** C9. [getVisited] only reads the history: the variable, the array
    behind it and every other array of the store are as before, and the
    slice it returns lies on an array that was not there before.  So
    whatever a caller writes into that array, the history is untouched
    and every later snapshot, also after further URLs are recorded, is
    what it would have been. *)
Theorem getVisited_pure_read st :
  wf st ->
  visitedURLs (getVisited st).1 = visitedURLs st
  /\ (forall l, l ∈ dom (heap st) ->
                heap (getVisited st).1 !! l = heap st !! l)
  /\ history (getVisited st).1 = history st
  /\ wf (getVisited st).1
  /\ (ptr (getVisited st).2 ∉ dom (heap st))
  /\ forall a urls,
       let st' := overwrite (getVisited st).1 (getVisited st).2 a in
       history st' = history st
       /\ snapshot (getVisited st') = reverse (history st)
       /\ snapshot (getVisited (visits grow urls st'))
          = snapshot (getVisited (visits grow urls (getVisited st).1)).
Proof.
  intros Hwf. rewrite (getVisited_spec st Hwf). simpl.
  pose proof (fresh_not_valid_ptr _ _ Hwf) as Hne.
  pose proof (is_fresh (dom (heap st))) as Hfresh.
  set (l := fresh (dom (heap st))) in *.
  set (st1 := {| heap := <[l := reverse (history st)]> (heap st);
                 visitedURLs := visitedURLs st |}).
  assert (wf st1 /\ history st1 = history st) as [Hwf1 Hh1].
  { destruct Hwf as (b & Hb & Hcap & Hlen). split.
    - exists b. simpl. by rewrite lookup_insert_ne.
    - unfold history, elems, backing. simpl. by rewrite lookup_insert_ne. }
  split; [done|]. split; [|split; [done|split; [done|split; [done|]]]].
  - intros k Hk. apply lookup_insert_ne. intros ->. done.
  - intros a urls.
    set (s := {| ptr := l; off := 0; len := len (visitedURLs st);
                 cap := len (visitedURLs st) |}).
    destruct (wf_overwrite st1 s a Hwf1 Hne) as [Hwf2 Hh2].
    split; [by rewrite Hh2|]. split.
    + by rewrite snapshot_getVisited, Hh2, Hh1.
    + destruct (visits_record urls _ Hwf2) as [Hw2 He2].
      destruct (visits_record urls _ Hwf1) as [Hw1 He1].
      by rewrite !snapshot_getVisited, He2, He1, Hh2.
Qed.
End Tracker_claims.

Lemma record_and_snapshot_witness :
  wf (visits (fun c _ => c) ["x"; "y"; "z"] initial)
  /\ "a" <> "b"
  /\ history (addToVisited (fun c _ => c) "y"
                (visits (fun c _ => c) ["x"; "y"; "z"] initial))
     = ["x"] ++ ["z"] ++ ["y"]
  /\ snapshot (getVisited (visits (fun c _ => c) ["x"; "y"; "z"] initial))
     = reverse (history (visits (fun c _ => c) ["x"; "y"; "z"] initial))
  /\ exists rest,
       snapshot (getVisited
                   (addToVisited (fun c _ => c) "b"
                      (addToVisited (fun c _ => c) "a"
                         (visits (fun c _ => c) ["x"; "y"; "z"] initial))))
       = "b" :: "a" :: rest.
Proof.
  assert (wf (visits (fun c _ => c) ["x"; "y"; "z"] initial)) as Hwf.
  { eexists. vm_compute. split; [reflexivity | split; lia]. }
  assert ("a" <> "b") as Hne by done.
  destruct (record_and_snapshot (fun c _ => c) _ "y" "a" "b" Hwf Hne)
    as (_ & Hpresent & _ & Hsnap & Htwo).
  split; [done|]. split; [done|]. split; [|split; [done|done]].
  apply (Hpresent ["x"] ["z"]); [reflexivity|].
  intros Hin. apply list_elem_of_singleton in Hin. done.
Defined.

Lemma history_invariant_kept_witness :
  wf (visits (fun c _ => c) ["x"; "y"; "z"] initial)
  /\ history_invariant (history (visits (fun c _ => c) ["x"; "y"; "z"] initial))
  /\ history_invariant
       (history (addToVisited (fun c _ => c) "y"
                   (visits (fun c _ => c) ["x"; "y"; "z"] initial))).
Proof.
  assert (wf (visits (fun c _ => c) ["x"; "y"; "z"] initial)) as Hwf.
  { eexists. vm_compute. split; [reflexivity | split; lia]. }
  destruct (history_invariant_kept (fun c _ => c)) as (_ & Hstep & Hall).
  pose proof (Hall ["x"; "y"; "z"]) as Hinv.
  split; [done|]. split; [done|].
  exact (proj2 (Hstep _ "y" Hwf Hinv)).
Defined.

Lemma getVisited_pure_read_witness :
  wf (visits (fun c _ => c) ["x"; "y"; "z"] initial)
  /\ history (getVisited (visits (fun c _ => c) ["x"; "y"; "z"] initial)).1
     = history (visits (fun c _ => c) ["x"; "y"; "z"] initial)
  /\ snapshot
       (getVisited
          (overwrite
             (getVisited (visits (fun c _ => c) ["x"; "y"; "z"] initial)).1
             (getVisited (visits (fun c _ => c) ["x"; "y"; "z"] initial)).2
             ["p"; "q"; "r"]))
     = reverse (history (visits (fun c _ => c) ["x"; "y"; "z"] initial)).
Proof.
  assert (wf (visits (fun c _ => c) ["x"; "y"; "z"] initial)) as Hwf.
  { eexists. vm_compute. split; [reflexivity | split; lia]. }
  destruct (getVisited_pure_read (fun c _ => c) _ Hwf)
    as (_ & _ & Hhist & _ & _ & Hlater).
  split; [done|]. split; [done|].
  exact (proj1 (proj2 (Hlater ["p"; "q"; "r"] []))).
Defined.

(** ** The scrape pipeline *)

Lemma each_blank url acc s : blank s = true -> each url acc s = acc.
Proof. unfold each, blank. by intros ->. Qed.

Lemma each_nonblank url acc s :
  blank s = false -> each url acc s = acc ++ [result_of url s].
Proof. unfold each, blank. by intros ->. Qed.

(** The [Each] loop keeps the nodes with non-blank text, in order. *)
Lemma foldl_each url nodes : forall acc,
  foldl (each url) acc nodes
  = acc ++ map (result_of url) (List.filter (fun s => negb (blank s)) nodes).
Proof.
  induction nodes as [|s nodes IH]; intros acc; simpl.
  - by rewrite app_nil_r.
  - rewrite IH. destruct (blank s) eqn:Hb; simpl.
    + by rewrite each_blank.
    + by rewrite each_nonblank, <- app_assoc.
Qed.

Lemma scrapeWebsite_ok http_Get url selector res doc :
  http_Get url = Ok res -> StatusCode res = 200%Z ->
  NewDocumentFromReader (Body res) = Ok doc ->
  scrapeWebsite http_Get url selector
  = Ok (map (result_of url)
          (List.filter (fun s => negb (blank s)) (Find doc selector))).
Proof.
  intros Hget Hcode Hdoc. unfold scrapeWebsite.
  rewrite Hget, Hcode, Hdoc. simpl. by rewrite foldl_each.
Qed.

Lemma scrapeWebsite_ok_inv http_Get url selector results :
  scrapeWebsite http_Get url selector = Ok results ->
  exists res doc,
    http_Get url = Ok res /\ StatusCode res = 200%Z
    /\ NewDocumentFromReader (Body res) = Ok doc.
Proof.
  unfold scrapeWebsite. intros H.
  destruct (http_Get url) as [res|e]; [|done].
  destruct (Z.eqb_spec (StatusCode res) 200) as [Hcode|Hcode]; [|done].
  simpl in H. destruct (NewDocumentFromReader (Body res)) as [doc|e] eqn:Hdoc;
    [|done].
  by exists res, doc.
Qed.

Lemma Attr_absent s name :
  Forall (fun a => Key a <> name) (Attrs s) -> Attr s name = ("", false).
Proof.
  intros Hall. unfold Attr.
  destruct (List.find _ (Attrs s)) as [a|] eqn:Hfind; [|done].
  apply find_some in Hfind as [Hin Hkey]. apply String.eqb_eq in Hkey.
  apply list_elem_of_In in Hin.
  by destruct (proj1 (Forall_forall _ _) Hall a Hin).
Qed.

(** C4, as the specification has it, fails: with status exactly 200 an
    error is still returned when the body cannot be read and parsed. *)
Lemma error_with_status_200 :
  scrapeWebsite
    (fun _ => Ok {| StatusCode := 200; Status := "200 OK";
                    Body := {| NewDocumentFromReader :=
                                 Err (External "unexpected EOF") |} |})
    "https://example.com" "a"
  = Err (External "unexpected EOF").
Proof. reflexivity. Qed.

(** C4, amended. When a response is received, [scrapeWebsite] returns an
    error exactly when the status is not exactly 200 or the body fails to
    parse.  Every status other than 200, the rest of the 2xx range
    included, gives the error built from the numeric status code and the
    status text; for 404 its message starts "status code error: 404".
    With status 200 the only error is the parser's own. *)
Theorem status_error_unless_200 http_Get url selector res :
  http_Get url = Ok res ->
  ((exists e, scrapeWebsite http_Get url selector = Err e)
   <-> (StatusCode res <> 200%Z
        \/ exists e, NewDocumentFromReader (Body res) = Err e))
  /\ (StatusCode res <> 200%Z ->
      scrapeWebsite http_Get url selector
      = Err (ErrorString ("status code error: " +:+ decimal (StatusCode res)
                          +:+ " " +:+ Status res)))
  /\ (StatusCode res = 404%Z ->
      scrapeWebsite http_Get url selector
      = Err (ErrorString ("status code error: 404 " +:+ Status res)))
  /\ (StatusCode res = 200%Z ->
      forall e, scrapeWebsite http_Get url selector = Err e ->
                NewDocumentFromReader (Body res) = Err e).
Proof.
  intros Hget. unfold scrapeWebsite. rewrite Hget.
  destruct (Z.eqb_spec (StatusCode res) 200) as [Hcode|Hcode]; simpl.
  - split; [|split; [done | split; [lia|]]].
    + destruct (NewDocumentFromReader (Body res)) as [doc|e]; split.
      * by intros [e He].
      * intros [Hne|[e He]]; done.
      * eauto.
      * eauto.
    + intros _ e He.
      destruct (NewDocumentFromReader (Body res)) as [doc|e'];
        [done | congruence].
  - split; [split; eauto|]. split; [done|]. split; [|done].
    by intros ->.
Qed.

Lemma status_error_unless_200_witness :
  scrapeWebsite
    (fun _ => Ok {| StatusCode := 404; Status := "404 Not Found";
                    Body := {| NewDocumentFromReader :=
                                 Ok {| Find := fun _ => [] |} |} |})
    "https://example.com/missing" "a"
  = Err (ErrorString "status code error: 404 404 Not Found").
Proof.
  refine (proj1 (proj2 (proj2
           (status_error_unless_200 _ "https://example.com/missing" "a"
              {| StatusCode := 404; Status := "404 Not Found";
                 Body := {| NewDocumentFromReader :=
                              Ok {| Find := fun _ => [] |} |} |}
              _))) _); reflexivity.
Defined.

(** C5. Whenever [scrapeWebsite] returns results, they are, in document
    order, one per matched node whose text does not trim to the empty
    string, each with the trimmed text of its node as title; the nodes
    whose text trims to the empty string are left out.  So no title is
    empty and none is white space only. *)
Theorem titles_trimmed_never_blank http_Get url selector results :
  scrapeWebsite http_Get url selector = Ok results ->
  (exists res doc,
     http_Get url = Ok res
     /\ NewDocumentFromReader (Body res) = Ok doc
     /\ results
        = map (fun s => {| Title := TrimSpace (Text s);
                           Link := normalize url (Attr s "href").1 |})
            (List.filter
               (fun s => negb (String.eqb (TrimSpace (Text s)) ""))
               (Find doc selector)))
  /\ Forall (fun r => Title r <> "" /\ ~ AllSpace (Title r)) results.
Proof.
  intros H.
  destruct (scrapeWebsite_ok_inv _ _ _ _ H)
    as (res & doc & Hget & Hcode & Hdoc).
  rewrite (scrapeWebsite_ok _ _ selector _ _ Hget Hcode Hdoc) in H.
  inversion H as [Hres]. clear H. split.
  - by exists res, doc.
  - apply Forall_forall. intros r Hr.
    apply list_elem_of_In, in_map_iff in Hr as (s & <- & Hs).
    apply filter_In in Hs as [_ Hs]. apply negb_true_iff in Hs.
    unfold blank in Hs. apply String.eqb_neq in Hs. simpl.
    split; [done | by apply TrimSpace_not_space].
Qed.

Lemma titles_trimmed_never_blank_witness :
  Forall (fun r => Title r <> "" /\ ~ AllSpace (Title r))
    [ {| Title := "Go"; Link := "https://example.com/go" |} ].
Proof.
  apply (titles_trimmed_never_blank
           (fun _ => Ok {| StatusCode := 200; Status := "200 OK";
                           Body := {| NewDocumentFromReader :=
                             Ok {| Find := fun _ =>
                               [ {| Text := "   "; Attrs := [] |};
                                 {| Text := " Go ";
                                    Attrs := [ {| Key := "href";
                                                  Val := "/go" |} ] |} ]
                                |} |} |})
           "https://example.com" "a").
  reflexivity.
Defined.

(** C6. When the selector matches no node, or only nodes whose text trims
    to the empty string, [scrapeWebsite] returns the empty sequence and no
    error. *)
Theorem no_text_no_results http_Get url selector res doc :
  http_Get url = Ok res -> StatusCode res = 200%Z ->
  NewDocumentFromReader (Body res) = Ok doc ->
  Find doc selector = []
  \/ Forall (fun s => TrimSpace (Text s) = "") (Find doc selector) ->
  scrapeWebsite http_Get url selector = Ok [].
Proof.
  intros Hget Hcode Hdoc Hnodes.
  rewrite (scrapeWebsite_ok _ _ selector _ _ Hget Hcode Hdoc). f_equal.
  assert (Forall (fun s => TrimSpace (Text s) = "") (Find doc selector))
    as Hall by (destruct Hnodes as [->|?]; [constructor | done]).
  clear Hnodes. induction Hall as [|s nodes Hs _ IH]; [done|]. simpl.
  unfold blank at 1. rewrite Hs. simpl. exact IH.
Qed.

Lemma no_text_no_results_witness :
  scrapeWebsite
    (fun _ => Ok {| StatusCode := 200; Status := "200 OK";
                    Body := {| NewDocumentFromReader :=
                      Ok {| Find := fun sel =>
                              if String.eqb sel "p" then
                                [ {| Text := "  "; Attrs := [] |};
                                  {| Text := ""; Attrs := [] |} ]
                              else [] |} |} |})
    "https://example.com" "p"
  = Ok []
  /\ scrapeWebsite
       (fun _ => Ok {| StatusCode := 200; Status := "200 OK";
                       Body := {| NewDocumentFromReader :=
                         Ok {| Find := fun sel =>
                                 if String.eqb sel "p" then
                                   [ {| Text := "  "; Attrs := [] |};
                                     {| Text := ""; Attrs := [] |} ]
                                 else [] |} |} |})
       "https://example.com" "h1"
     = Ok [].
Proof.
  split.
  - eapply no_text_no_results; [reflexivity | reflexivity | reflexivity |].
    right. simpl. repeat constructor.
  - eapply no_text_no_results; [reflexivity | reflexivity | reflexivity |].
    left. reflexivity.
Defined.

(** C10. A matched node whose trimmed text is not empty and which has no
    href attribute at all still gives a result, with the empty string as
    link: the absent attribute reads as the empty string, exactly as an
    href attribute with an empty value does, and the normaliser leaves the
    empty string alone. *)
Theorem absent_href_empty_link http_Get url selector res doc s :
  http_Get url = Ok res -> StatusCode res = 200%Z ->
  NewDocumentFromReader (Body res) = Ok doc ->
  In s (Find doc selector) ->
  TrimSpace (Text s) <> "" ->
  Forall (fun a => Key a <> "href") (Attrs s) ->
  (exists results,
     scrapeWebsite http_Get url selector = Ok results
     /\ In {| Title := TrimSpace (Text s); Link := "" |} results)
  /\ (forall acc,
        each url acc s = acc ++ [{| Title := TrimSpace (Text s); Link := "" |}])
  /\ (forall acc rest,
        each url acc s
        = each url acc
            {| Text := Text s;
               Attrs := {| Key := "href"; Val := "" |} :: rest |}).
Proof.
  intros Hget Hcode Hdoc Hin Htext Hattrs.
  apply String.eqb_neq in Htext.
  assert (result_of url s = {| Title := TrimSpace (Text s); Link := "" |})
    as Hres by (unfold result_of; by rewrite (Attr_absent s "href" Hattrs)).
  split; [|split].
  - eexists.
    split; [exact (scrapeWebsite_ok _ _ selector _ _ Hget Hcode Hdoc)|].
    rewrite <- Hres. apply in_map, filter_In. split; [done|].
    unfold blank. by rewrite Htext.
  - intros acc. by rewrite each_nonblank, Hres.
  - intros acc rest. rewrite !each_nonblank by done.
    by rewrite Hres.
Qed.

Lemma absent_href_empty_link_witness :
  exists results,
    scrapeWebsite
      (fun _ => Ok {| StatusCode := 200; Status := "200 OK";
                      Body := {| NewDocumentFromReader :=
                        Ok {| Find := fun _ =>
                                [ {| Text := " Title ";
                                     Attrs := [ {| Key := "class";
                                                   Val := "t" |} ] |} ]
                           |} |} |})
      "https://example.com" "h3"
    = Ok results
    /\ In {| Title := TrimSpace " Title "; Link := "" |} results.
Proof.
  refine (proj1 (absent_href_empty_link _ "https://example.com" "h3" _ _
                   {| Text := " Title ";
                      Attrs := [ {| Key := "class"; Val := "t" |} ] |}
                   _ _ _ _ _ _)).
  - reflexivity.
  - reflexivity.
  - reflexivity.
  - simpl. by left.
  - by vm_compute.
  - repeat constructor. by vm_compute.
Defined.

(** * Further properties *)

(** ** What the tracker leaves alone *)

(** [append] touches one array of the store at most, the one behind the
    slice it is given; a slice it moves lies on an array that was not
    there. *)
Lemma append_frame grow h s vs :
  (ptr (append grow h s vs).2 = ptr s
   \/ ptr (append grow h s vs).2 ∉ dom h)
  /\ (forall l, l ∈ dom h -> l ∈ dom (append grow h s vs).1)
  /\ (forall l, l ∈ dom h -> l <> ptr s ->
                (append grow h s vs).1 !! l = h !! l).
Proof.
  unfold append, alloc.
  destruct (Nat.leb_spec (len s + length vs) (cap s)); simpl.
  - split; [by left|]. split.
    + intros l Hl. apply dom_insert. set_solver.
    + intros l _ Hne. by apply lookup_insert_ne.
  - pose proof (is_fresh (dom h)) as Hfresh. split; [by right|]. split.
    + intros l Hl. apply dom_insert. set_solver.
    + intros l Hl _. apply lookup_insert_ne. intros Heq. by subst l.
Qed.

Lemma addToVisited_frame grow url st l :
  l ∈ dom (heap st) -> l <> ptr (visitedURLs st) ->
  heap (addToVisited grow url st) !! l = heap st !! l
  /\ l ∈ dom (heap (addToVisited grow url st))
  /\ l <> ptr (visitedURLs (addToVisited grow url st)).
Proof.
  destruct st as [h v]. simpl. intros Hl Hne. unfold addToVisited. simpl.
  destruct (range_find url (elems h v) 0) as [i|].
  - pose proof (append_frame grow h (slice_to v i)
                  (elems h (slice_from v (i + 1)))) as (Hp1 & Hd1 & Hf1).
    destruct (append grow h (slice_to v i) _) as [h1 v1]. simpl in *.
    pose proof (append_frame grow h1 v1 [url]) as (Hp2 & Hd2 & Hf2).
    destruct (append grow h1 v1 [url]) as [h2 v2]. simpl in *.
    assert (l <> ptr v1) by (destruct Hp1 as [->|Hp1]; [done | by intros ->]).
    split; [by rewrite Hf2, Hf1 by auto|]. split; [auto|].
    destruct Hp2 as [->|Hp2]; [done|]. intros ->. apply Hp2. auto.
  - pose proof (append_frame grow h v [url]) as (Hp1 & Hd1 & Hf1).
    destruct (append grow h v [url]) as [h1 v1]. simpl in *.
    assert (l <> ptr v1) by (destruct Hp1 as [->|Hp1]; [done | by intros ->]).
    destruct (10 <? len v1); simpl; auto.
Qed.

Lemma visits_frame grow urls : forall st l,
  l ∈ dom (heap st) -> l <> ptr (visitedURLs st) ->
  heap (visits grow urls st) !! l = heap st !! l.
Proof.
  induction urls as [|u urls IH]; intros st l Hl Hne; simpl; [done|].
  destruct (addToVisited_frame grow u st l Hl Hne) as (Heq & Hl' & Hne').
  by rewrite IH.
Qed.

(** What [getVisited] leaves and returns, for use below. *)
Lemma getVisited_facts st :
  wf st ->
  wf (getVisited st).1
  /\ history (getVisited st).1 = history st
  /\ heap (getVisited st).1 !! ptr (getVisited st).2
     = Some (reverse (history st))
  /\ ptr (getVisited st).2 <> ptr (visitedURLs (getVisited st).1)
  /\ off (getVisited st).2 = 0
  /\ len (getVisited st).2 = length (history st).
Proof.
  intros Hwf. rewrite (getVisited_spec st Hwf). simpl.
  pose proof (fresh_not_valid_ptr _ _ Hwf) as Hne.
  split; [|split; [|split; [|split; [done|split; [done|]]]]].
  - destruct Hwf as (b & Hb & Hcap & Hlen).
    exists b. simpl. by rewrite lookup_insert_ne.
  - unfold history, elems, backing. simpl. by rewrite lookup_insert_ne.
  - apply lookup_insert_eq.
  - unfold history. by rewrite (valid_length_elems _ _ Hwf).
Qed.

Lemma elems_whole h s a :
  h !! ptr s = Some a -> off s = 0 -> len s = length a -> elems h s = a.
Proof.
  intros Ha Hoff Hlen. rewrite (elems_lookup h s a Ha), Hoff, Hlen, drop_0.
  by apply take_ge.
Qed.

Lemma record_last_fresh u l :
  NoDup l -> exists k, record u l = k ++ [u] /\ (u ∉ k).
Proof.
  intros Hnd. destruct (decide (u ∈ l)) as [Hin|Hnot].
  - apply list_elem_of_split_l in Hin as (l1 & l2 & -> & Hnot1).
    rewrite record_present by done. exists (l1 ++ l2).
    split; [by rewrite app_assoc|].
    apply NoDup_app in Hnd as (_ & _ & Hnd2). apply NoDup_cons in Hnd2.
    intros [?|?]%elem_of_app; tauto.
  - unfold record. rewrite decide_False by done. simpl. case_decide.
    + destruct l as [|x l]; [simpl in *; lia|]. simpl. rewrite drop_0.
      exists l. split; [done|]. intros Hin. apply Hnot. by right.
    + by exists l.
Qed.

Lemma record_members u l x :
  x ∈ record u l -> x = u \/ x ∈ l.
Proof.
  unfold record. case_decide as Hin.
  - apply list_elem_of_split_l in Hin as (l1 & l2 & -> & Hnot1).
    rewrite remove_first_app by done. set_solver.
  - simpl. case_decide; [|set_solver].
    destruct l as [|y l]; [simpl in *; lia|]. simpl. rewrite drop_0.
    set_solver.
Qed.

Lemma record_keeps u l x :
  x ∈ l ->
  x ∈ record u l
  \/ ((u ∉ l) /\ 10 <= length l /\ head l = Some x).
Proof.
  intros Hx. unfold record. case_decide as Hin.
  - left. apply list_elem_of_split_l in Hin as (l1 & l2 & -> & Hnot1).
    rewrite remove_first_app by done. set_solver.
  - simpl. rewrite length_app. simpl. case_decide; [|set_solver].
    destruct l as [|y l]; [by apply elem_of_nil in Hx|].
    simpl. rewrite drop_0. simpl in *.
    apply elem_of_cons in Hx as [->|Hx].
    + right. split; [done|]. split; [lia | done].
    + left. set_solver.
Qed.

Lemma filter_snoc_out u (l : list string) :
  filter (fun x => x <> u) (l ++ [u]) = filter (fun x => x <> u) l.
Proof.
  rewrite filter_app, filter_cons_False by (by intros ?).
  by rewrite filter_nil, app_nil_r.
Qed.

Lemma record_order u l :
  filter (fun x => x <> u) (record u l)
  `suffix_of` filter (fun x => x <> u) l.
Proof.
  unfold record. case_decide as Hin.
  - apply list_elem_of_split_l in Hin as (l1 & l2 & -> & Hnot1).
    rewrite remove_first_app, filter_snoc_out by done.
    rewrite !filter_app, filter_cons_False by (by intros ?). done.
  - simpl. case_decide; [|by rewrite filter_snoc_out].
    destruct l as [|y l]; [simpl in *; lia|]. simpl. rewrite drop_0.
    rewrite filter_snoc_out, filter_cons.
    case_decide; [apply suffix_cons_r|]; done.
Qed.

Section Tracker_more.
Variable grow : nat -> nat -> nat.

(** X1. A snapshot that [getVisited] handed out is on an array of its
    own: however many URLs are recorded afterwards, it still shows the
    history as it was when it was taken. *)
Theorem earlier_snapshot_survives st urls :
  wf st ->
  elems (heap (visits grow urls (getVisited st).1)) (getVisited st).2
  = reverse (history st).
Proof.
  intros Hwf.
  destruct (getVisited_facts st Hwf) as (Hwf1 & _ & Hrev & Hne & Hoff & Hlen).
  apply elems_whole; [|done|by rewrite length_reverse].
  rewrite visits_frame; [done| |done].
  apply elem_of_dom. eauto.
Qed.

(** X2. Recording the same URL twice in a row is the same as recording it
    once, when the history holds no entry twice. *)
Theorem addToVisited_twice st u :
  wf st -> NoDup (history st) ->
  history (addToVisited grow u (addToVisited grow u st))
  = history (addToVisited grow u st).
Proof.
  intros Hwf Hnd.
  destruct (addToVisited_record grow u st Hwf) as [Hwf1 Hrec1].
  destruct (addToVisited_record grow u _ Hwf1) as [_ ->].
  rewrite Hrec1.
  destruct (record_last_fresh u (history st) Hnd) as (k & -> & Hk).
  rewrite (record_present u k []) by done. by rewrite app_nil_l.
Qed.

(** X3. Recording a URL drops no entry but, at most, the oldest one, and
    that one only when the URL is new and ten or more entries are held;
    and it brings in no entry but the URL recorded. *)
Theorem addToVisited_loses_only_oldest st u x :
  wf st ->
  (x ∈ history st ->
   x ∈ history (addToVisited grow u st)
   \/ ((u ∉ history st) /\ 10 <= length (history st)
       /\ head (history st) = Some x))
  /\ (x ∈ history (addToVisited grow u st) -> x = u \/ x ∈ history st).
Proof.
  intros Hwf. destruct (addToVisited_record grow u st Hwf) as [_ ->].
  split; [apply record_keeps | apply record_members].
Qed.

(** X4. Recording a URL never reorders the other entries: without that
    URL, the history afterwards is the history before, or its tail when
    the oldest entry went. *)
Theorem addToVisited_keeps_order st u :
  wf st ->
  filter (fun x => x <> u) (history (addToVisited grow u st))
  `suffix_of` filter (fun x => x <> u) (history st).
Proof.
  intros Hwf. destruct (addToVisited_record grow u st Hwf) as [_ ->].
  apply record_order.
Qed.
End Tracker_more.

Lemma earlier_snapshot_survives_witness :
  elems (heap (visits (fun c _ => c) ["c"; "a"; "d"]
                 (getVisited (visits (fun c _ => c) ["a"; "b"] initial)).1))
    (getVisited (visits (fun c _ => c) ["a"; "b"] initial)).2
  = reverse (history (visits (fun c _ => c) ["a"; "b"] initial)).
Proof.
  apply (earlier_snapshot_survives (fun c _ => c)).
  eexists. vm_compute. split; [reflexivity | split; lia].
Defined.

Lemma addToVisited_twice_witness :
  history (addToVisited (fun c _ => c) "a"
             (addToVisited (fun c _ => c) "a"
                (visits (fun c _ => c) ["a"; "b"] initial)))
  = history (addToVisited (fun c _ => c) "a"
               (visits (fun c _ => c) ["a"; "b"] initial)).
Proof.
  apply (addToVisited_twice (fun c _ => c)).
  - eexists. vm_compute. split; [reflexivity | split; lia].
  - vm_compute. apply NoDup_cons. split.
    + intros Hin. apply list_elem_of_singleton in Hin. done.
    + apply NoDup_singleton.
Defined.

Lemma addToVisited_loses_only_oldest_witness :
  "b" ∈ history (addToVisited (fun c _ => c) "c"
                   (visits (fun c _ => c) ["a"; "b"] initial))
  \/ (("c" ∉ history (visits (fun c _ => c) ["a"; "b"] initial))
      /\ 10 <= length (history (visits (fun c _ => c) ["a"; "b"] initial))
      /\ head (history (visits (fun c _ => c) ["a"; "b"] initial))
         = Some "b").
Proof.
  refine (proj1 (addToVisited_loses_only_oldest (fun c _ => c)
                   (visits (fun c _ => c) ["a"; "b"] initial) "c" "b" _) _).
  - eexists. vm_compute. split; [reflexivity | split; lia].
  - vm_compute. apply list_elem_of_In. simpl. auto.
Defined.

Lemma addToVisited_keeps_order_witness :
  filter (fun x => x <> "a")
    (history (addToVisited (fun c _ => c) "a"
                (visits (fun c _ => c) ["a"; "b"; "c"] initial)))
  `suffix_of`
  filter (fun x => x <> "a")
    (history (visits (fun c _ => c) ["a"; "b"; "c"] initial)).
Proof.
  apply (addToVisited_keeps_order (fun c _ => c)).
  eexists. vm_compute. split; [reflexivity | split; lia].
Defined.

(** ** The request handler *)

Lemma Handler_state grow g e q st :
  (Handler grow g e q st).1
  = if String.eqb (Get q "url") "" then (getVisited st).1
    else addToVisited grow (Get q "url") (getVisited st).1.
Proof.
  unfold Handler. destruct (getVisited st) as [st1 visited]. simpl.
  destruct (String.eqb (Get q "url") ""); simpl; [done|].
  destruct (negb _); [|done].
  by destruct (scrapeWebsite _ _ _).
Qed.

Lemma Handler_Visited grow g e q st :
  PageData.Visited (Handler grow g e q st).2 = (getVisited st).2.
Proof.
  unfold Handler. destruct (getVisited st) as [st1 visited]. simpl.
  destruct (String.eqb (Get q "url") ""); simpl; [done|].
  destruct (negb _); [|done].
  by destruct (scrapeWebsite _ _ _).
Qed.

Lemma Handler_wf_history grow g e q st :
  wf st ->
  wf (Handler grow g e q st).1
  /\ history (Handler grow g e q st).1
     = if String.eqb (Get q "url") "" then history st
       else record (Get q "url") (history st).
Proof.
  intros Hwf. rewrite Handler_state.
  destruct (getVisited_facts st Hwf) as (Hwf1 & Hh1 & _).
  destruct (String.eqb (Get q "url") ""); [done|].
  destruct (addToVisited_record grow (Get q "url") _ Hwf1) as [Hwf2 ->].
  by rewrite Hh1.
Qed.

Lemma Handler_shown grow g e q st :
  wf st -> shown_history (Handler grow g e q st) = reverse (history st).
Proof.
  intros Hwf. unfold shown_history. rewrite Handler_Visited, Handler_state.
  destruct (getVisited_facts st Hwf) as (Hwf1 & _ & Hrev & Hne & Hoff & Hlen).
  apply elems_whole; [|done|by rewrite length_reverse].
  destruct (String.eqb (Get q "url") ""); [done|].
  destruct (addToVisited_frame grow (Get q "url") (getVisited st).1
              (ptr (getVisited st).2)) as [-> _]; [|done..].
  apply elem_of_dom. eauto.
Qed.

Lemma matching_site_None url :
  (forall site, In site recommendedSites -> URL site <> url) ->
  matching_site url = None.
Proof.
  intros Hnone. unfold matching_site.
  destruct (List.find _ recommendedSites) as [site|] eqn:Hfind; [|done].
  apply find_some in Hfind as [Hin Heq]. apply String.eqb_eq in Heq.
  by destruct (Hnone site Hin).
Qed.

(** The catalog's URLs are all different, so the loop stops at the site
    itself. *)
Lemma matching_site_Some site :
  In site recommendedSites -> matching_site (URL site) = Some site.
Proof.
  intros Hin. simpl in Hin.
  destruct Hin as [<-|[<-|[<-|[]]]]; reflexivity.
Qed.

Section Handler_facts.
Variable grow : nat -> nat -> nat.
Variable http_Get : string -> result Response.
Variable elapsed : Z.

(** X5. A request without a [url] parameter (absent, or empty) records
    nothing and scrapes nothing, whatever its [selector] parameter: the
    history is as before, the page data carries no URL, selector, result
    or error, and the network is not used. *)
Theorem Handler_without_url query st :
  wf st -> Get query "url" = "" ->
  history (Handler grow http_Get elapsed query st).1 = history st
  /\ PageData.URL (Handler grow http_Get elapsed query st).2 = ""
  /\ PageData.Selector (Handler grow http_Get elapsed query st).2 = ""
  /\ PageData.Results (Handler grow http_Get elapsed query st).2 = []
  /\ PageData.Error (Handler grow http_Get elapsed query st).2 = ""
  /\ forall http_Get' elapsed',
       Handler grow http_Get' elapsed' query st
       = Handler grow http_Get elapsed query st.
Proof.
  intros Hwf Hurl.
  destruct (Handler_wf_history grow http_Get elapsed query st Hwf) as [_ Hh].
  rewrite Hurl in Hh. split; [done|].
  unfold Handler. destruct (getVisited st) as [st1 visited].
  rewrite Hurl. simpl. done.
Qed.

(** X6. A request with a non-empty [url] records it whatever comes of
    the request: with or without a selector, and whether the scrape
    succeeds or fails, the history afterwards is the history before with
    that URL recorded. *)
Theorem Handler_records_url query st :
  wf st -> Get query "url" <> "" ->
  wf (Handler grow http_Get elapsed query st).1
  /\ history (Handler grow http_Get elapsed query st).1
     = record (Get query "url") (history st)
  /\ PageData.URL (Handler grow http_Get elapsed query st).2
     = Get query "url".
Proof.
  intros Hwf Hurl. apply String.eqb_neq in Hurl.
  destruct (Handler_wf_history grow http_Get elapsed query st Hwf)
    as [Hwf' Hh].
  rewrite Hurl in Hh. split; [done|]. split; [done|].
  unfold Handler. destruct (getVisited st) as [st1 visited].
  rewrite Hurl. simpl.
  destruct (negb _); [|done]. by destruct (scrapeWebsite _ _ _).
Qed.

(** X7. The history list on the page is the one from before the request:
    the snapshot is taken first, and recording the request's URL
    afterwards does not reach into it.  So the page lists the URL it was
    asked for only if that URL had been visited before. *)
Theorem Handler_shows_earlier_history query st :
  wf st ->
  shown_history (Handler grow http_Get elapsed query st)
  = reverse (history st).
Proof. apply Handler_shown. Qed.

(** X8. A request that names a catalog site and gives no selector is
    scraped with that site's selector, which is also the selector on the
    page; results and error text are those of that scrape. *)
Theorem Handler_default_selector query st site :
  In site recommendedSites ->
  Get query "url" = URL site -> Get query "selector" = "" ->
  PageData.Selector (Handler grow http_Get elapsed query st).2
  = Selector site
  /\ match scrapeWebsite http_Get (URL site) (Selector site) with
     | Ok results =>
         PageData.Results (Handler grow http_Get elapsed query st).2
         = results
         /\ PageData.Error (Handler grow http_Get elapsed query st).2 = ""
     | Err err =>
         PageData.Results (Handler grow http_Get elapsed query st).2 = []
         /\ PageData.Error (Handler grow http_Get elapsed query st).2
            = "Error scraping: " +:+ error_text err
     end.
Proof.
  intros Hin Hurl Hsel. unfold Handler.
  destruct (getVisited st) as [st1 visited].
  rewrite Hurl, Hsel, (matching_site_Some site Hin). simpl.
  assert (String.eqb (URL site) "" = false
          /\ String.eqb (Selector site) "" = false)
    as [-> ->]
    by (simpl in Hin; destruct Hin as [<-|[<-|[<-|[]]]]; done).
  simpl. by destruct (scrapeWebsite _ _ _).
Qed.

(** X9. A request with a URL outside the catalog and no selector is not
    scraped: the page carries the error "Please provide a CSS selector."
    and no result, and the network is not used. *)
Theorem Handler_no_selector query st :
  Get query "url" <> "" -> Get query "selector" = "" ->
  (forall site, In site recommendedSites -> URL site <> Get query "url") ->
  PageData.Error (Handler grow http_Get elapsed query st).2
  = "Please provide a CSS selector."
  /\ PageData.Results (Handler grow http_Get elapsed query st).2 = []
  /\ PageData.Selector (Handler grow http_Get elapsed query st).2 = ""
  /\ forall http_Get' elapsed',
       Handler grow http_Get' elapsed' query st
       = Handler grow http_Get elapsed query st.
Proof.
  intros Hurl Hsel Hnone. apply String.eqb_neq in Hurl. unfold Handler.
  destruct (getVisited st) as [st1 visited].
  rewrite Hurl, Hsel, (matching_site_None _ Hnone). simpl. done.
Qed.

(** X10. A selector given in the request is the one used, also for a
    catalog site: the page carries it, and results and error text are
    those of the scrape of the URL with it. *)
Theorem Handler_explicit_selector query st :
  Get query "url" <> "" -> Get query "selector" <> "" ->
  PageData.Selector (Handler grow http_Get elapsed query st).2
  = Get query "selector"
  /\ PageData.Duration (Handler grow http_Get elapsed query st).2 = elapsed
  /\ match scrapeWebsite http_Get (Get query "url") (Get query "selector")
     with
     | Ok results =>
         PageData.Results (Handler grow http_Get elapsed query st).2
         = results
         /\ PageData.Error (Handler grow http_Get elapsed query st).2 = ""
     | Err err =>
         PageData.Results (Handler grow http_Get elapsed query st).2 = []
         /\ PageData.Error (Handler grow http_Get elapsed query st).2
            = "Error scraping: " +:+ error_text err
     end.
Proof.
  intros Hurl Hsel. apply String.eqb_neq in Hurl, Hsel. unfold Handler.
  destruct (getVisited st) as [st1 visited].
  rewrite Hurl, Hsel. simpl. rewrite Hsel. simpl.
  by destruct (scrapeWebsite _ _ _).
Qed.

(** X11. The page never carries both an error and results: when the
    error text is not empty there are no results. *)
Theorem Handler_error_or_results query st :
  PageData.Error (Handler grow http_Get elapsed query st).2 = ""
  \/ PageData.Results (Handler grow http_Get elapsed query st).2 = [].
Proof.
  unfold Handler. destruct (getVisited st) as [st1 visited].
  destruct (negb (String.eqb (Get query "url") "")); simpl; [|by left].
  destruct (negb _); [|by right].
  destruct (scrapeWebsite _ _ _); simpl; [by left | by right].
Qed.
End Handler_facts.

Section Handler_runs.
Variable grow : nat -> nat -> nat.


Lemma serve_wf_invariant net elapsed queries : forall st,
  wf st -> history_invariant (history st) ->
  wf (serve grow net elapsed queries st)
  /\ history_invariant (history (serve grow net elapsed queries st)).
Proof.
  induction queries as [|q queries IH]; intros st Hwf Hinv; simpl; [done|].
  destruct (Handler_wf_history grow net elapsed q st Hwf) as [Hwf' Hh].
  apply IH; [done|]. rewrite Hh.
  destruct (String.eqb (Get q "url") ""); [done|].
  by apply record_invariant.
Qed.

(** X13. Whatever requests are served from the start of the program, and
    whatever the network answers, the history holds at most 10 entries
    and none twice. *)
Theorem serve_keeps_invariant net elapsed queries :
  history_invariant (history (serve grow net elapsed queries initial)).
Proof.
  apply serve_wf_invariant; [apply wf_initial|].
  split; [simpl; lia | apply NoDup_nil_2].
Qed.

(** X14. The URL of a request heads the history list on the page of the
    request served next, whatever that next request asks for. *)
Theorem Handler_next_shows_url_first net1 net2 e1 e2 q1 q2 st :
  wf st -> Get q1 "url" <> "" ->
  exists rest,
    shown_history (Handler grow net2 e2 q2 (Handler grow net1 e1 q1 st).1)
    = Get q1 "url" :: rest.
Proof.
  intros Hwf Hurl. apply String.eqb_neq in Hurl.
  destruct (Handler_wf_history grow net1 e1 q1 st Hwf) as [Hwf1 Hh1].
  rewrite Handler_shown, Hh1, Hurl by done.
  assert (exists k, record (Get q1 "url") (history st) = k ++ [Get q1 "url"])
    as [k ->].
  { unfold record. case_decide; [eauto|]. simpl. case_decide; [|eauto].
    destruct (history st) as [|x l]; [simpl in *; lia|].
    simpl. rewrite drop_0. eauto. }
  rewrite reverse_snoc. eauto.
Qed.
End Handler_runs.

Lemma Handler_without_url_witness :
  history (Handler (fun c _ => c) (fun _ => Err (External "no network")) 0
             {[ "selector" := ["h2 a"] ]}
             (visits (fun c _ => c) ["a"; "b"] initial)).1
  = history (visits (fun c _ => c) ["a"; "b"] initial).
Proof.
  refine (proj1 (Handler_without_url (fun c _ => c) _ 0
                   {[ "selector" := ["h2 a"] ]} _ _ _)).
  - eexists. vm_compute. split; [reflexivity | split; lia].
  - reflexivity.
Defined.

Lemma Handler_records_url_witness :
  history (Handler (fun c _ => c) (fun _ => Err (External "no network")) 0
             {[ "url" := ["a"] ]}
             (visits (fun c _ => c) ["a"; "b"] initial)).1
  = record "a" (history (visits (fun c _ => c) ["a"; "b"] initial)).
Proof.
  refine (proj1 (proj2 (Handler_records_url (fun c _ => c) _ 0
                          {[ "url" := ["a"] ]} _ _ _))).
  - eexists. vm_compute. split; [reflexivity | split; lia].
  - by vm_compute.
Defined.

Lemma Handler_shows_earlier_history_witness :
  shown_history
    (Handler (fun c _ => c) (fun _ => Err (External "no network")) 0
       {[ "url" := ["c"] ]} (visits (fun c _ => c) ["a"; "b"] initial))
  = reverse (history (visits (fun c _ => c) ["a"; "b"] initial)).
Proof.
  apply Handler_shows_earlier_history.
  eexists. vm_compute. split; [reflexivity | split; lia].
Defined.

Lemma Handler_default_selector_witness :
  PageData.Selector
    (Handler (fun c _ => c) (fun _ => Err (External "no network")) 0
       {[ "url" := ["https://github.com/trending"] ]} initial).2
  = "h2 a".
Proof.
  refine (proj1 (Handler_default_selector (fun c _ => c) _ 0
                   {[ "url" := ["https://github.com/trending"] ]} initial
                   {| URL := "https://github.com/trending"; Tag := "GitHub";
                      Selector := "h2 a";
                      Example := "Trending repositories" |} _ _ _)).
  - simpl. auto.
  - reflexivity.
  - reflexivity.
Defined.

Lemma Handler_no_selector_witness :
  PageData.Error
    (Handler (fun c _ => c) (fun _ => Err (External "no network")) 0
       {[ "url" := ["https://example.com"] ]} initial).2
  = "Please provide a CSS selector.".
Proof.
  refine (proj1 (Handler_no_selector (fun c _ => c) _ 0
                   {[ "url" := ["https://example.com"] ]} initial _ _ _)).
  - by vm_compute.
  - reflexivity.
  - intros site Hin. simpl in Hin.
    destruct Hin as [<-|[<-|[<-|[]]]]; by vm_compute.
Defined.

Lemma Handler_explicit_selector_witness :
  PageData.Selector
    (Handler (fun c _ => c) (fun _ => Err (External "no network")) 0
       (<[ "selector" := ["h1"] ]>
          {[ "url" := ["https://github.com/trending"] ]}) initial).2
  = "h1".
Proof.
  refine (proj1 (Handler_explicit_selector (fun c _ => c) _ 0
                   (<[ "selector" := ["h1"] ]>
                      {[ "url" := ["https://github.com/trending"] ]})
                   initial _ _)); by vm_compute.
Defined.


Lemma Handler_next_shows_url_first_witness :
  exists rest,
    shown_history
      (Handler (fun c _ => c) (fun _ => Err (External "no network")) 0 ∅
         (Handler (fun c _ => c) (fun _ => Err (External "no network")) 0
            {[ "url" := ["c"] ]}
            (visits (fun c _ => c) ["a"; "b"] initial)).1)
    = Get {[ "url" := ["c"] ]} "url" :: rest.
Proof.
  apply (Handler_next_shows_url_first (fun c _ => c)).
  - eexists. vm_compute. split; [reflexivity | split; lia].
  - by vm_compute.
Defined.

(** ** More on the link normaliser *)

Lemma append_empty_inv (a b : string) : a +:+ b = "" -> b = "".
Proof. destruct a; [done|]. rewrite append_cons. done. Qed.

Lemma append_empty_r (s : string) : s +:+ "" = s.
Proof.
  induction s as [|c s IH]; [done|]. by rewrite append_cons, IH.
Qed.

Lemma Split_no_sep s :
  has_byte "/" s = false -> Split s "/" = [s].
Proof.
  induction s as [|c s IH]; simpl; [done|].
  intros [Hc Hs]%orb_false_iff. rewrite Hc, (IH Hs). done.
Qed.

Lemma Split_sep s t :
  has_byte "/" s = false ->
  Split (s +:+ "/" +:+ t) "/" = s :: Split t "/".
Proof.
  change ("/" +:+ t) with (String "/" t).
  induction s as [|c s IH]; [done|].
  simpl. intros [Hc Hs]%orb_false_iff. by rewrite Hc, (IH Hs).
Qed.

Lemma Split_cons s : exists part parts, Split s "/" = part :: parts.
Proof.
  induction s as [|c s (part & parts & IH)]; simpl; [eauto|].
  destruct (Ascii.eqb c "/"); [eauto|]. rewrite IH. eauto.
Qed.

Lemma origin_of_host scheme host tail :
  has_byte "/" scheme = false -> has_byte "/" host = false ->
  tail = "" \/ (exists path, tail = "/" +:+ path) ->
  origin_of (scheme +:+ "//" +:+ host +:+ tail) = scheme +:+ "//" +:+ host.
Proof.
  intros Hs Hh Htail. unfold origin_of.
  assert (exists rest,
            Split (scheme +:+ "//" +:+ host +:+ tail) "/"
            = scheme :: "" :: host :: rest) as [rest ->].
  { change (scheme +:+ "//" +:+ host +:+ tail)
      with (scheme +:+ "/" +:+ ("" +:+ "/" +:+ (host +:+ tail))).
    rewrite !Split_sep by done.
    destruct Htail as [->|[path ->]].
    - exists []. by rewrite append_empty_r, Split_no_sep.
    - exists (Split path "/"). by rewrite Split_sep. }
  destruct (decide _) as [Hlt|_]; [simpl in Hlt; lia | done].
Qed.

(** X15. The normaliser only ever puts something in front of the href:
    the href is the tail of the link, and the link is empty exactly when
    the href is. *)
Theorem normalize_only_prepends url link :
  (exists front, normalize url link = front +:+ link)
  /\ (normalize url link = "" <-> link = "").
Proof.
  assert (exists front, normalize url link = front +:+ link) as Hfront.
  { unfold normalize. destruct (_ && _); [|by exists ""].
    destruct (HasPrefix link "/").
    - destruct (3 <=? _); eauto.
    - exists (TrimSuffix url "/" +:+ "/"). by rewrite append_assoc. }
  split; [done|]. split.
  - destruct Hfront as [front ->]. apply append_empty_inv.
  - by intros ->.
Qed.

(** X16. Against a page URL of the form scheme//host, with or without a
    path after the host, an href that starts with "/" resolves to
    scheme//host followed by the href: the page's own path plays no
    part. *)
Theorem normalize_root_relative scheme host tail href :
  has_byte "/" scheme = false -> has_byte "/" host = false ->
  tail = "" \/ (exists path, tail = "/" +:+ path) ->
  HasPrefix href "/" = true ->
  normalize (scheme +:+ "//" +:+ host +:+ tail) href
  = scheme +:+ "//" +:+ host +:+ href.
Proof.
  intros Hs Hh Htail Hhref.
  pose proof (origin_of_host scheme host tail Hs Hh Htail) as Horigin.
  replace (scheme +:+ "//" +:+ host +:+ href)
    with ((scheme +:+ "//" +:+ host) +:+ href) by (by rewrite !append_assoc).
  rewrite <- Horigin.
  generalize (scheme +:+ "//" +:+ host +:+ tail). intros base.
  rewrite normalize_as_rules. unfold normalize_rules.
  rewrite Hhref. apply HasPrefix_spec in Hhref as [rest ->].
  destruct (decide ("/" +:+ rest = "")) as [Habs|_]; [done|].
  by rewrite !append_cons, !HasPrefix_false_head by done.
Qed.

Lemma TrimSuffix_slash base : TrimSuffix (base +:+ "/") "/" = base.
Proof.
  unfold TrimSuffix, HasSuffix. rewrite length_append. simpl.
  replace (String.length base + 1 - 1) with (String.length base) by lia.
  rewrite (str_drop_app base "/"), (str_take_app base "/").
  by rewrite Nat.add_1_r.
Qed.

(** X17. A path-relative href is put after the whole page URL and one
    "/", and one trailing "/" of the page URL makes no difference. *)
Theorem normalize_path_relative base href :
  path_relative href ->
  normalize (base +:+ "/") href = base +:+ "/" +:+ href
  /\ (HasSuffix base "/" = false ->
      normalize base href = base +:+ "/" +:+ href).
Proof.
  intros (Hne & Hhttp & Hmail & Hroot).
  rewrite !normalize_as_rules. unfold normalize_rules.
  destruct (decide (href = "")) as [?|_]; [done|].
  rewrite Hhttp, Hmail, Hroot. cbn [orb].
  rewrite TrimSuffix_slash. split; [done|].
  intros Hsuf. unfold TrimSuffix. by rewrite Hsuf.
Qed.

Lemma normalize_root_relative_witness :
  normalize ("https:" +:+ "//" +:+ "example.com" +:+ "/a/b?x=1") "/c"
  = "https:" +:+ "//" +:+ "example.com" +:+ "/c".
Proof.
  apply normalize_root_relative; [reflexivity | reflexivity | | reflexivity].
  right. by exists "a/b?x=1".
Defined.

Lemma normalize_path_relative_witness :
  normalize ("https://example.com/a" +:+ "/") "b.html"
  = "https://example.com/a" +:+ "/" +:+ "b.html".
Proof.
  refine (proj1 (normalize_path_relative "https://example.com/a" "b.html" _)).
  repeat split; by vm_compute.
Defined.

(** ** The earlier version of the program *)

Lemma range_find_present url us k :
  url ∈ us -> exists i, range_find url us k = Some i.
Proof.
  intros Hin. destruct (range_find url us k) as [i|] eqn:Hfind; [eauto|].
  by apply range_find_None in Hfind.
Qed.

Lemma range_find_absent url us k : url ∉ us -> range_find url us k = None.
Proof.
  intros Hnot. destruct (range_find url us k) as [i|] eqn:Hfind; [|done].
  apply range_find_Some in Hfind as (l1 & l2 & -> & _).
  destruct Hnot. apply elem_of_app. right. apply list_elem_of_here.
Qed.

Lemma earlier_addToVisited_record grow u st :
  wf st ->
  wf (Earlier.addToVisited grow u st)
  /\ history (Earlier.addToVisited grow u st)
     = if decide (u ∈ history st) then history st
       else record u (history st).
Proof.
  intros Hwf. case_decide as Hin.
  - destruct (range_find_present u (history st) 0 Hin) as [i Hi].
    unfold Earlier.addToVisited. unfold history in Hi. by rewrite Hi.
  - pose proof (range_find_absent u (history st) 0 Hin) as Hnone.
    destruct (addToVisited_record grow u st Hwf) as [Hwf' Hrec].
    unfold Earlier.addToVisited, addToVisited in *. unfold history in Hnone.
    rewrite Hnone in *. done.
Qed.

Section Earlier_facts.
Variable grow : nat -> nat -> nat.

(** X18. In the earlier version a URL that is already held is not moved:
    recording it leaves the state as it is, so it keeps its place in the
    order of eviction.  A URL that is not held is recorded as in the
    current version. *)
Theorem earlier_addToVisited_no_refresh st u :
  (u ∈ history st -> Earlier.addToVisited grow u st = st)
  /\ (u ∉ history st ->
      Earlier.addToVisited grow u st = addToVisited grow u st).
Proof.
  split; intros Hu.
  - destruct (range_find_present u (history st) 0 Hu) as [i Hi].
    unfold Earlier.addToVisited. unfold history in Hi. by rewrite Hi.
  - pose proof (range_find_absent u (history st) 0 Hu) as Hnone.
    unfold Earlier.addToVisited, addToVisited. unfold history in Hnone.
    by rewrite Hnone.
Qed.

(** X19. The earlier version keeps the same invariant: after every
    sequence of recorded URLs the history holds at most 10 entries and
    none twice. *)
Theorem earlier_history_invariant urls :
  history_invariant
    (history (foldl (fun st u => Earlier.addToVisited grow u st)
                initial urls)).
Proof.
  assert (forall st,
            wf st -> history_invariant (history st) ->
            history_invariant
              (history (foldl (fun st u => Earlier.addToVisited grow u st)
                          st urls))) as Hgen.
  { induction urls as [|u urls IH]; intros st Hwf Hinv; simpl; [done|].
    destruct (earlier_addToVisited_record grow u st Hwf) as [Hwf' Hh].
    apply IH; [done|]. rewrite Hh.
    case_decide; [done | by apply record_invariant]. }
  apply Hgen; [apply wf_initial|].
  split; [simpl; lia | apply NoDup_nil_2].
Qed.
End Earlier_facts.

Lemma earlier_foldl_each url nodes : forall acc,
  foldl (Earlier.each url) acc nodes
  = acc ++ map (fun s => {| Title := TrimSpace (Text s);
                            Link := Earlier.resolve url (Attr s "href").1 |})
             nodes.
Proof.
  induction nodes as [|s nodes IH]; intros acc; simpl.
  - by rewrite app_nil_r.
  - rewrite IH. unfold Earlier.each. by rewrite <- app_assoc.
Qed.

(** X20. The earlier scraper returns one result for every matched node,
    in document order, blank titles included, and sets [resultCount] to
    their number. *)
Theorem earlier_scrape_one_per_node http_Get elapsed url selector g res doc :
  http_Get url = Ok res -> StatusCode res = 200%Z ->
  NewDocumentFromReader (Body res) = Ok doc ->
  exists results,
    (Earlier.scrapeWebsite http_Get elapsed url selector g).2 = Ok results
    /\ map Title results = map (fun s => TrimSpace (Text s)) (Find doc selector)
    /\ length results = length (Find doc selector)
    /\ Earlier.resultCount
         (Earlier.scrapeWebsite http_Get elapsed url selector g).1
       = Z.of_nat (length (Find doc selector)).
Proof.
  intros Hget Hcode Hdoc. unfold Earlier.scrapeWebsite.
  rewrite Hget, Hcode, Hdoc. simpl. rewrite earlier_foldl_each. simpl.
  eexists. split; [done|].
  rewrite length_map, map_map. simpl. done.
Qed.

(** X21. The earlier link rule agrees with the current normaliser on
    hrefs that start with "http" and on path-relative hrefs; but it never
    gives an empty link: a node without href gets the page URL with a
    "/" at its end. *)
Theorem earlier_resolve_against_normalize url href :
  (HasPrefix href "http" = true \/ path_relative href ->
   Earlier.resolve url href = normalize url href)
  /\ Earlier.resolve url href <> ""
  /\ Earlier.resolve url "" = TrimSuffix url "/" +:+ "/".
Proof.
  split; [|split; [|done]].
  - intros [Hhttp|(Hne & Hhttp & Hmail & Hroot)].
    + rewrite normalize_absolute by done. unfold Earlier.resolve.
      by rewrite Hhttp.
    + rewrite normalize_as_rules. unfold normalize_rules, Earlier.resolve.
      destruct (decide (href = "")) as [?|_]; [done|].
      by rewrite Hhttp, Hmail, Hroot.
  - unfold Earlier.resolve.
    destruct (HasPrefix href "http") eqn:Hhttp; simpl.
    + intros ->. done.
    + destruct (HasPrefix href "/") eqn:Hroot.
      * intros Habs. apply append_empty_inv in Habs. by subst.
      * intros Habs. by apply append_empty_inv in Habs.
Qed.

(** X22. In the earlier version the results are global: a request that
    scrapes nothing, because it has no URL or because no selector is
    given or found for its URL, leaves [currentResults] as the request
    before left it, and the page is rendered with them; the network is
    not used. *)
Theorem earlier_handler_stale_results grow http_Get elapsed query st g :
  Get query "url" = ""
  \/ (Get query "selector" = ""
      /\ forall site, In site recommendedSites -> URL site <> Get query "url")
  ->
  Earlier.currentResults (Earlier.handler grow http_Get elapsed query st g).1.2
  = Earlier.currentResults g
  /\ Earlier.currentURL (Earlier.handler grow http_Get elapsed query st g).1.2
     = (if String.eqb (Get query "url") "" then Earlier.currentURL g
        else Get query "url")
  /\ (Earlier.handler grow http_Get elapsed query st g).2 = Earlier.Page
  /\ forall http_Get' elapsed',
       Earlier.handler grow http_Get' elapsed' query st g
       = Earlier.handler grow http_Get elapsed query st g.
Proof.
  unfold Earlier.handler. intros [Hurl|[Hsel Hnone]].
  - rewrite Hurl. simpl. by destruct (String.eqb _ "toggle").
  - rewrite Hsel, (matching_site_None _ Hnone). simpl.
    destruct (String.eqb (Get query "url") ""); simpl;
      by destruct (String.eqb _ "toggle").
Qed.

(** X23. When the scrape fails in the earlier version, the reply is the
    error text alone; [currentURL] is already the new URL while
    [currentResults] are still those of the request before. *)
Theorem earlier_handler_failed_scrape grow http_Get elapsed query st g err :
  Get query "url" <> "" -> Get query "selector" <> "" ->
  scrapeWebsite http_Get (Get query "url") (Get query "selector") = Err err ->
  (Earlier.handler grow http_Get elapsed query st g).2
  = Earlier.ErrorText ("Error scraping website: " +:+ error_text err)
  /\ Earlier.currentURL (Earlier.handler grow http_Get elapsed query st g).1.2
     = Get query "url"
  /\ Earlier.currentResults
       (Earlier.handler grow http_Get elapsed query st g).1.2
     = Earlier.currentResults g.
Proof.
  intros Hurl Hsel Herr. apply String.eqb_neq in Hurl, Hsel.
  unfold Earlier.handler. rewrite Hurl, Hsel. simpl. rewrite Hsel. simpl.
  unfold Earlier.scrapeWebsite. unfold scrapeWebsite in Herr.
  destruct (http_Get (Get query "url")) as [res|e].
  - destruct (negb (StatusCode res =? 200)%Z).
    + inversion Herr. simpl. by destruct (String.eqb _ "toggle").
    + destruct (NewDocumentFromReader (Body res)) as [doc|e]; [done|].
      inversion Herr. simpl. by destruct (String.eqb _ "toggle").
  - inversion Herr. simpl. by destruct (String.eqb _ "toggle").
Qed.

Lemma earlier_addToVisited_no_refresh_witness :
  Earlier.addToVisited (fun c _ => c) "a"
    (visits (fun c _ => c) ["a"; "b"] initial)
  = visits (fun c _ => c) ["a"; "b"] initial.
Proof.
  apply (proj1 (earlier_addToVisited_no_refresh (fun c _ => c)
                  (visits (fun c _ => c) ["a"; "b"] initial) "a")).
  apply list_elem_of_In. vm_compute. auto.
Defined.

Lemma earlier_scrape_one_per_node_witness :
  exists results,
    (Earlier.scrapeWebsite
       (fun _ => Ok {| StatusCode := 200; Status := "200 OK";
                       Body := {| NewDocumentFromReader :=
                         Ok {| Find := fun _ =>
                                 [ {| Text := "  "; Attrs := [] |};
                                   {| Text := " Go "; Attrs := [] |} ] |}
                         |} |})
       0 "https://example.com" "a"
       (Earlier.Globals [] "" "" false 0 0)).2
    = Ok results
    /\ length results = 2.
Proof.
  destruct (earlier_scrape_one_per_node
              (fun _ => Ok {| StatusCode := 200; Status := "200 OK";
                              Body := {| NewDocumentFromReader :=
                                Ok {| Find := fun _ =>
                                        [ {| Text := "  "; Attrs := [] |};
                                          {| Text := " Go "; Attrs := [] |} ]
                                   |} |} |})
              0 "https://example.com" "a"
              (Earlier.Globals [] "" "" false 0 0) _ _
              eq_refl eq_refl eq_refl)
    as (results & Hres & _ & Hlen & _).
  exists results. split; [exact Hres | exact Hlen].
Defined.

Lemma earlier_resolve_against_normalize_witness :
  Earlier.resolve "https://example.com/a/" "b.html"
  = normalize "https://example.com/a/" "b.html".
Proof.
  apply (proj1 (earlier_resolve_against_normalize
                  "https://example.com/a/" "b.html")).
  right. repeat split; by vm_compute.
Defined.

Lemma earlier_handler_stale_results_witness :
  Earlier.currentResults
    (Earlier.handler (fun c _ => c) (fun _ => Err (External "no network")) 0
       {[ "url" := ["https://example.com"] ]} initial
       (Earlier.Globals [ {| Title := "old"; Link := "https://old/" |} ]
          "https://old" "a" false 0 1)).1.2
  = [ {| Title := "old"; Link := "https://old/" |} ].
Proof.
  refine (proj1 (earlier_handler_stale_results (fun c _ => c) _ 0
                   {[ "url" := ["https://example.com"] ]} initial
                   (Earlier.Globals
                      [ {| Title := "old"; Link := "https://old/" |} ]
                      "https://old" "a" false 0 1) _)).
  right. split; [reflexivity|].
  intros site Hin. simpl in Hin.
  destruct Hin as [<-|[<-|[<-|[]]]]; by vm_compute.
Defined.

Lemma earlier_handler_failed_scrape_witness :
  (Earlier.handler (fun c _ => c) (fun _ => Err (External "refused")) 0
     (<[ "selector" := ["a"] ]> {[ "url" := ["https://example.com"] ]})
     initial
     (Earlier.Globals [ {| Title := "old"; Link := "https://old/" |} ]
        "https://old" "a" false 0 1)).2
  = Earlier.ErrorText ("Error scraping website: " +:+ "refused").
Proof.
  refine (proj1 (earlier_handler_failed_scrape (fun c _ => c)
                   (fun _ => Err (External "refused")) 0
                   (<[ "selector" := ["a"] ]>
                      {[ "url" := ["https://example.com"] ]})
                   initial
                   (Earlier.Globals
                      [ {| Title := "old"; Link := "https://old/" |} ]
                      "https://old" "a" false 0 1)
                   (External "refused") _ _ _)).
  - by vm_compute.
  - by vm_compute.
  - reflexivity.
Defined.
